(** * async-file: promise wrappers over the Node.js file system API

    A shallow embedding of the two generations of the library that the
    repository holds:

    - [AsyncFile]: the current interface ([src/unnamed/part_001]), built on
      [promisify], with [createDirectory]/[mkdirp], [del] (rimraf) and
      [exists] (lstat);
    - [Legacy]: the first interface ([src/index.ts]), built on [thunk], with
      [createOptions], [del] (unlink) and [exists] (stat).

    The Node.js primitives ([fs.*], [path.*], [rimraf], [process.cwd]) are
    the environment.  They are gathered in a [Layer]; the library code is
    written once against an arbitrary layer, and [Posix] gives the reference
    layer used for the statements that speak about directories, regular
    files and symbolic links. *)

From Stdlib Require Import ZArith Ascii String.
From stdpp Require Import gmap strings list.

#[global] Set Warnings "-register-all".

(** * JavaScript data *)

Module Js.

(** An error object.  [new Error(msg)] carries a message only; the errors
    raised by the file system layer also carry [code], [syscall] and
    [path], as Node.js sets them. *)
Record Error := mkError {
  message : string;
  code : option string;
  syscall : option string;
  path : option string
}.

#[global] Instance Error_eq_dec : EqDecision Error.
Proof. solve_decision. Defined.

(** [new Error(message)] *)
Definition new_Error (msg : string) : Error :=
  {| message := msg; code := None; syscall := None; path := None |}.

(** [err.code === c] *)
Definition code_is (err : Error) (c : string) : bool :=
  bool_decide (code err = Some c).

(** The error a system call [call] on [p] fails with. *)
Definition system_error (c call p : string) : Error :=
  {| message := c +:+ ": " +:+ call +:+ " '" +:+ p +:+ "'";
     code := Some c; syscall := Some call; path := Some p |}.

(** What [fs.Stats] tells about an entry. *)
Inductive kind := Directory | RegularFile | SymbolicLink.

#[global] Instance kind_eq_dec : EqDecision kind.
Proof. solve_decision. Defined.

Record Stats := mkStats { st_kind : kind }.

#[global] Instance Stats_eq_dec : EqDecision Stats.
Proof. solve_decision. Defined.

Definition isDirectory (st : Stats) : bool := bool_decide (st_kind st = Directory).
Definition isFile (st : Stats) : bool := bool_decide (st_kind st = RegularFile).
Definition isSymbolicLink (st : Stats) : bool := bool_decide (st_kind st = SymbolicLink).

(** The functions of [fs] that the library hands to [promisify] and
    [thunk]. *)
Inductive fs_function :=
| Faccess | FappendFile | Fchmod | Fchown | Fclose | Ffchmod | Ffchown
| Ffstat | Fftruncate | Ffutimes | Ffsync | Flchmod | Flchown | Flink
| Flstat | Fmkdir | Fmkdtemp | Fopen | Fread | Freaddir | FreadFile
| Freadlink | Frealpath | Frename | Frmdir | Fstat | Fsymlink | Ftruncate
| Funlink | Futimes | Fwrite | FwriteFile.

#[global] Instance fs_function_eq_dec : EqDecision fs_function.
Proof. solve_decision. Defined.

(** The two anonymous resolver functions of the source:
    [function () { return { bytesRead: arguments[1], buffer: arguments[2] }; }]
    in [read], and the same with [written] in [write]. *)
Inductive resolver := read_resolver | write_resolver.

Inductive function := Fs (f : fs_function) | Resolver (r : resolver).

(** The values that travel through the wrappers. *)
Inductive value :=
| VUndefined
| VNull
| VBool (b : bool)
| VNum (n : Z)
| VStr (s : string)
| VBuffer (bytes : list Z)
| VStats (st : Stats)
| VFunction (f : function)
| VArray (items : list value)            (* arrays and [arguments] objects *)
| VObject (fields : list (string * value)).

(** [a[i]]: [undefined] past the end. *)
Definition index (a : list value) (i : nat) : value := nth i a VUndefined.

(** Calling a resolver with the argument list [arguments]. *)
Definition apply_resolver (r : resolver) (arguments : list value) : value :=
  match r with
  | read_resolver =>
      VObject [("bytesRead", index arguments 1); ("buffer", index arguments 2)]
  | write_resolver =>
      VObject [("written", index arguments 1); ("buffer", index arguments 2)]
  end.

(** An optional parameter: left out (or [undefined]), [null], or given. *)
Inductive optional (A : Type) := undefined | null | given (a : A).
Arguments undefined {A}.
Arguments null {A}.
Arguments given {A} a.

(** The state a promise is left in once the event loop has nothing more to
    run for it. *)
Inductive promise (T : Type) := Pending | Resolved (v : T) | Rejected (e : Error).
Arguments Pending {T}.
Arguments Resolved {T} v.
Arguments Rejected {T} e.

Definition settled {T} (p : promise T) : bool :=
  match p with Pending => false | _ => true end.

(** The [arguments] object of a call [wrap(target, args)] or
    [wrap(target, args, context, resolver)], for [wrap] one of
    [promisify] and [thunk]. *)
Definition arguments_of (target : fs_function) (args : list value)
    (context : option value) (resolver : option resolver) : list value :=
  [VFunction (Fs target); VArray args] ++
  match context, resolver with
  | None, None => []
  | Some c, None => [c]
  | None, Some r => [VUndefined; VFunction (Resolver r)]
  | Some c, Some r => [c; VFunction (Resolver r)]
  end.

(** [flags[0] === 'a'] *)
Definition starts_with_a (flags : string) : bool :=
  match flags with
  | String c _ => bool_decide (c = "a"%char)
  | EmptyString => false
  end.

(** An optional parameter as the value it is passed on as. *)
Definition optional_value {A} (f : A → value) (o : optional A) : value :=
  match o with
  | undefined => VUndefined
  | null => VNull
  | given a => f a
  end.

End Js.
Export Js.

(** * Paths: Node's [path] module on POSIX *)

Module Path.

Definition is_slash (c : ascii) : bool := bool_decide (c = "/"%char).

(** Cutting a path at every slash. *)
Fixpoint split (s : string) : list string :=
  match s with
  | EmptyString => [EmptyString]
  | String c s' =>
      if is_slash c then EmptyString :: split s'
      else match split s' with
           | [] => [String c EmptyString]
           | seg :: segs => String c seg :: segs
           end
  end.

(** The names between the slashes; empty ones (doubled or trailing
    slashes) do not count. *)
Definition components (s : string) : list string :=
  filter (λ seg, seg ≠ EmptyString) (split s).

Definition isAbsolute (s : string) : bool :=
  match s with
  | String c _ => is_slash c
  | EmptyString => false
  end.

(** [.] stays, [..] goes up (and stays at the root). *)
Definition normalize_step (acc : list string) (seg : string) : list string :=
  if decide (seg = ".") then acc
  else if decide (seg = "..") then removelast acc
  else acc ++ [seg].

Definition normalize (segs : list string) : list string :=
  foldl normalize_step [] segs.

(** The absolute path with the given components. *)
Definition join (segs : list string) : string :=
  match segs with
  | [] => "/"
  | _ => foldr (λ seg rest, "/" +:+ seg +:+ rest) "" segs
  end.

(** [path.resolve(p)] in a process whose working directory is [cwd]. *)
Definition resolve (cwd p : string) : string :=
  join (normalize (components (if isAbsolute p then p else cwd +:+ "/" +:+ p))).

Fixpoint drop_while {A} (f : A → bool) (l : list A) : list A :=
  match l with
  | [] => []
  | x :: l' => if f x then drop_while f l' else l
  end.

(** [path.dirname(p)].  Node scans [p] from its end down to index 1:
    it skips trailing slashes, then the last name, and cuts at the slash
    before it. *)
Definition dirname (p : string) : string :=
  match p with
  | EmptyString => "."
  | String c0 rest =>
      let scanned := reverse (list_ascii_of_string rest) in
      match drop_while (λ c, negb (is_slash c)) (drop_while is_slash scanned) with
      | [] => if is_slash c0 then "/" else "."
      | _ :: before =>
          if is_slash c0 && bool_decide (before = []) then "//"
          else String c0 (string_of_list_ascii (reverse before))
      end
  end.

End Path.

(** * The primitive layer

    What the library consumes from Node.js.  A primitive takes the state of
    the outside world and returns the new state together with what it
    passes to its callback: [None] (a falsy [err]) on success, [Some err] on
    failure. *)

Inductive Mode := ModeNum (n : Z) | ModeStr (s : string).

Definition callback_args : Type := option Error * list value.

Class Layer := {
  World : Type;
  (** [process.cwd()], read by [path.resolve] *)
  process_cwd : World → string;
  fs_mkdir : string → Mode → World → World * option Error;
  fs_stat : string → World → World * (Error + Stats);
  fs_lstat : string → World → World * (Error + Stats);
  fs_access : string → optional Mode → World → World * option Error;
  fs_unlink : string → World → World * option Error;
  (** the [rimraf] package *)
  rimraf_run : string → World → World * option Error;
  (** every other call [target.apply(context, args)] *)
  fs_other : fs_function → list value → World → World * callback_args
}.

Definition mode_value (m : Mode) : value :=
  match m with ModeNum n => VNum n | ModeStr s => VStr s end.

Definition stats_args (r : Error + Stats) : callback_args :=
  match r with
  | inl err => (Some err, [])
  | inr st => (None, [VStats st])
  end.

(** [target.apply(context, args.concat([callback]))], up to the callback:
    the wrapped [fs.stat], [fs.lstat], [fs.unlink], [fs.mkdir] and
    [fs.access] are the primitives that the library also calls directly. *)
Definition fs_apply `{Layer} (target : fs_function) (args : list value)
    (w : World) : World * callback_args :=
  match target, args with
  | Fstat, [VStr p] => let '(w', r) := fs_stat p w in (w', stats_args r)
  | Flstat, [VStr p] => let '(w', r) := fs_lstat p w in (w', stats_args r)
  | Funlink, [VStr p] => let '(w', err) := fs_unlink p w in (w', (err, []))
  | Fmkdir, [VStr p] => let '(w', err) := fs_mkdir p (ModeNum 511 (* 0o777 *)) w in (w', (err, []))
  | Fmkdir, [VStr p; VNum n] => let '(w', err) := fs_mkdir p (ModeNum n) w in (w', (err, []))
  | Fmkdir, [VStr p; VStr s] => let '(w', err) := fs_mkdir p (ModeStr s) w in (w', (err, []))
  | Faccess, [VStr p] => let '(w', err) := fs_access p undefined w in (w', (err, []))
  | Faccess, [VStr p; VNum n] => let '(w', err) := fs_access p (given (ModeNum n)) w in (w', (err, []))
  | _, _ => fs_other target args w
  end.

(** ** Callbacks and promises

    A computation that ends when the event loop has nothing left to run:
    from the state of the world to the new state and the state of the
    promise under construction. *)

Definition K `{Layer} (T : Type) : Type := World → World * promise T.

(** [new Promise((resolve, reject) => executor)] *)
Definition Promise `{Layer} {T} (executor : (T → K T) → (Error → K T) → K T) : K T :=
  executor (λ v w, (w, Resolved v)) (λ e w, (w, Rejected e)).

(** Control goes back to the event loop and no callback is outstanding:
    the promise stays as it is. *)
Definition idle `{Layer} {T} : K T := λ w, (w, Pending).

(** The callback-taking functions, as the source calls them. *)
Module fs.
Section Calls.
Context `{Layer} {T : Type}.

Definition mkdir (path : string) (mode : Mode) (callback : option Error → K T) : K T :=
  λ w, let '(w', err) := fs_mkdir path mode w in callback err w'.

(** The callback of [stat] and [lstat] gets [(err)] or [(null, stats)]. *)
Definition stat (path : string) (callback : Error + Stats → K T) : K T :=
  λ w, let '(w', r) := fs_stat path w in callback r w'.

Definition lstat (path : string) (callback : Error + Stats → K T) : K T :=
  λ w, let '(w', r) := fs_lstat path w in callback r w'.

Definition access (path : string) (mode : optional Mode) (callback : option Error → K T) : K T :=
  λ w, let '(w', err) := fs_access path mode w in callback err w'.

Definition apply (target : fs_function) (args : list value)
    (callback : option Error → list value → K T) : K T :=
  λ w, let '(w', (err, results)) := fs_apply target args w in callback err results w'.

End Calls.
End fs.

Definition rimraf `{Layer} {T} (path : string) (callback : option Error → K T) : K T :=
  λ w, let '(w', err) := rimraf_run path w in callback err w'.

Module pathutil.
Definition resolve `{Layer} (path : string) (w : World) : string :=
  Path.resolve (process_cwd w) path.
Definition dirname : string → string := Path.dirname.
End pathutil.

(** * The current interface ([src/unnamed/part_001]) *)

Module AsyncFile.
Section Library.
Context `{Layer}.

(** [promisify].  The callback is an arrow function, and so is the
    executor around it (they are arrow functions in the compiled
    [index.js] as well): an arrow function has no [arguments] of its own,
    so the [arguments] that the callback hands to the resolver are those
    of [promisify] itself. *)
Definition promisify (target : fs_function) (args : list value)
    (context : option value) (resolver : option resolver) : K value :=
  let arguments := arguments_of target args context resolver in
  Promise (λ resolve reject,
    fs.apply target args (λ err results,
      let result := index results 0 in
      match err with
      | Some err => reject err
      | None =>
          match resolver with
          | Some r => resolve (apply_resolver r arguments)
          | None => resolve result
          end
      end)).

Definition access (path : string) (mode : optional Mode) : K bool :=
  Promise (λ resolve _,
    fs.access path mode (λ err,
      match err with
      | None => resolve true
      | Some _ => resolve false
      end)).

Definition appendFile (arguments : list value) : K value := promisify FappendFile arguments None None.
Definition lstat (path : string) : K value := promisify Flstat [VStr path] None None.
Definition mkdir (arguments : list value) : K value := promisify Fmkdir arguments None None.
Definition read (fd : Z) (buffer : list Z) (offset length position : Z) : K value :=
  promisify Fread [VNum fd; VBuffer buffer; VNum offset; VNum length; VNum position]
    (Some VNull) (Some read_resolver).
Definition readFile (arguments : list value) : K value := promisify FreadFile arguments None None.
Definition stat (path : string) : K value := promisify Fstat [VStr path] None None.
Definition unlink (path : string) : K value := promisify Funlink [VStr path] None None.
Definition write (arguments : list value) : K value :=
  promisify Fwrite arguments (Some VNull) (Some write_resolver).
Definition writeFile (arguments : list value) : K value := promisify FwriteFile arguments None None.

Definition readTextFile (file : value) (encoding flags : optional string) : K value :=
  let encoding := match encoding with undefined => given "utf8" | _ => encoding end in
  let flags := match flags with undefined | null => "r" | given f => f end in
  promisify FreadFile
    [file; VObject [("encoding", optional_value VStr encoding); ("flags", VStr flags)]]
    None None.

Definition writeTextFile (file : value) (data : string) (encoding flags : optional string)
    (mode : optional Mode) : K value :=
  let encoding := match encoding with undefined => given "utf8" | _ => encoding end in
  let flags := match flags with undefined | null => "w" | given f => f end in
  let options := VObject [("encoding", optional_value VStr encoding);
                          ("flags", VStr flags);
                          ("mode", optional_value mode_value mode)] in
  if starts_with_a flags then
    promisify FappendFile [file; VStr data; options] None None
  else
    promisify FwriteFile [file; VStr data; options] None None.

(** [mkdirp].  The recursion of the source is not structural: [fuel]
    bounds the number of nested calls, and a run that exhausts it never
    calls [done]. *)
Fixpoint mkdirp (fuel : nat) (path : string) (mode : Mode)
    (done : option Error → K unit) : K unit :=
  match fuel with
  | O => idle
  | S fuel =>
      λ w,
      let path := pathutil.resolve path w in
      fs.mkdir path mode (λ err,
        match err with
        | None => done None
        | Some err =>
            if code_is err "ENOENT" then
              mkdirp fuel (pathutil.dirname path) mode (λ err,
                match err with
                | None => mkdirp fuel path mode done
                | Some _ => done err
                end)
            else
              fs.stat path (λ r,
                match r with
                | inl err => done (Some err)
                | inr stat =>
                    if negb (isDirectory stat)
                    then done (Some (new_Error (path +:+ " is already a file")))
                    else done None
                end)
        end) w
  end.

Definition createDirectory (fuel : nat) (path : string) (mode : option Mode) : K unit :=
  let mode := default (ModeNum 511 (* 0o777 *)) mode in
  Promise (λ resolve reject,
    mkdirp fuel path mode (λ err,
      match err with
      | None => resolve tt
      | Some err => reject err
      end)).

Definition del (path : string) : K unit :=
  Promise (λ resolve reject,
    rimraf path (λ err,
      match err with
      | None => resolve tt
      | Some err => reject err
      end)).

Definition exists_ (path : string) : K bool :=
  Promise (λ resolve reject,
    fs.lstat path (λ r,
      match r with
      | inr _ => resolve true
      | inl err => if code_is err "ENOENT" then resolve false else reject err
      end)).

End Library.
End AsyncFile.

(** * The first interface ([src/index.ts]) *)

(** The enum [Encoding], by its seven members. *)
Module Encoding.
Inductive t := ascii | base64 | binary | hex | ucs2 | utf16le | utf8.

(** [Encoding[e]]: the reverse mapping of the enum, from member to name. *)
Definition name (e : t) : string :=
  match e with
  | ascii => "ascii" | base64 => "base64" | binary => "binary" | hex => "hex"
  | ucs2 => "ucs2" | utf16le => "utf16le" | utf8 => "utf8"
  end.
End Encoding.

(** The enum [OpenFlags], by its twelve members. *)
Module OpenFlags.
Inductive t :=
| read | readWrite | readSync | readWriteSync
| write | writeNoOverwrite | create | createNoOverwrite
| append | appendNoOverwrite | appendRead | appendReadNoOverwrite.
End OpenFlags.

Module Legacy.

(** The table [openFlags]. *)
Definition openFlags (f : OpenFlags.t) : string :=
  match f with
  | OpenFlags.read => "r"
  | OpenFlags.readWrite => "r+"
  | OpenFlags.readSync => "rs"
  | OpenFlags.readWriteSync => "rs+"
  | OpenFlags.write => "w"
  | OpenFlags.writeNoOverwrite => "wx"
  | OpenFlags.create => "w+"
  | OpenFlags.createNoOverwrite => "wx+"
  | OpenFlags.append => "a"
  | OpenFlags.appendNoOverwrite => "ax"
  | OpenFlags.appendRead => "a+"
  | OpenFlags.appendReadNoOverwrite => "ax+"
  end.

(** The object that [createOptions] fills in: a property that was never
    assigned is absent. *)
Record Options := mkOptions {
  encoding : option string;
  flags : option string;
  mode : option string
}.

Definition options_value (o : Options) : value :=
  VObject (from_option (λ e, [("encoding", VStr e)]) [] (encoding o) ++
           from_option (λ f, [("flags", VStr f)]) [] (flags o) ++
           from_option (λ m, [("mode", VStr m)]) [] (mode o)).

(** A parameter of type [Encoding|string] or [OpenFlags|string]:
    [inl] when [typeof] gives ['number'], [inr] when it gives ['string']. *)
Definition createOptions (encoding : optional (Encoding.t + string))
    (flags : optional (OpenFlags.t + string)) (mode : optional string) : Options :=
  let encoding :=
    match encoding with
    | undefined | null => given (inl Encoding.utf8)
    | _ => encoding
    end in
  {| encoding :=
       match encoding with
       | given (inl e) => Some (Encoding.name e)
       | given (inr s) => Some s
       | _ => None
       end;
     flags :=
       match flags with
       | given (inl f) => Some (openFlags f)
       | given (inr s) => Some s
       | _ => None
       end;
     mode :=
       match mode with
       | given m => if decide (m = "") then None else Some m
       | _ => None
       end |}.

Section Library.
Context `{Layer}.

(** [thunk].  Where a resolver is given, the callback calls it and drops
    what it returns. *)
Definition thunk (target : fs_function) (args : list value)
    (context : option value) (resolver : option resolver) : K value :=
  let arguments := arguments_of target args context resolver in
  Promise (λ resolve reject,
    fs.apply target args (λ err results,
      let result := index results 0 in
      match err with
      | Some err => reject err
      | None =>
          match resolver with
          | Some r => let _ := apply_resolver r arguments in idle
          | None => resolve result
          end
      end)).

(** An [async function] whose body is [return thunk(...)] returns a
    promise that follows the one of [thunk]. *)
Definition access (arguments : list value) : K value := thunk Faccess arguments None None.
Definition lstat (path : string) : K value := thunk Flstat [VStr path] None None.
Definition mkdir (arguments : list value) : K value := thunk Fmkdir arguments None None.
Definition read (fd : Z) (buffer : list Z) (offset length position : Z) : K value :=
  thunk Fread [VNum fd; VBuffer buffer; VNum offset; VNum length; VNum position]
    (Some VNull) (Some read_resolver).
Definition stat (path : string) : K value := thunk Fstat [VStr path] None None.
Definition unlink (path : string) : K value := thunk Funlink [VStr path] None None.
Definition write (arguments : list value) : K value :=
  thunk Fwrite arguments (Some VNull) (Some write_resolver).

(** [return v] and [throw err] in the body of an [async function]. *)
Definition return_ {T} (v : T) : K T := λ w, (w, Resolved v).
Definition throw {T} (err : Error) : K T := λ w, (w, Rejected err).

(** [try { x = await p; ... } catch (err) { ... }]: the body resumes only
    once [p] is settled. *)
Definition try_await {A T} (p : K A) (body : A → K T) (catch : Error → K T) : K T :=
  λ w, let '(w', r) := p w in
       match r with
       | Pending => (w', Pending)
       | Resolved v => body v w'
       | Rejected err => catch err w'
       end.

Definition readTextFile (file : value) (encoding : optional (Encoding.t + string))
    (flags : optional (OpenFlags.t + string)) : K value :=
  let flags := match flags with undefined | null => given (inl OpenFlags.read) | _ => flags end in
  thunk FreadFile [file; options_value (createOptions encoding flags undefined)] None None.

(** [options.flags[0]] throws where [options] has no [flags]; thrown in
    the body of an [async function], the error rejects its promise. *)
Definition writeTextFile (file : value) (data : string)
    (encoding : optional (Encoding.t + string))
    (flags : optional (OpenFlags.t + string)) (mode : optional string) : K value :=
  let flags := match flags with undefined | null => given (inl OpenFlags.write) | _ => flags end in
  let options := createOptions encoding flags mode in
  match Legacy.flags options with
  | None => throw (new_Error "Cannot read property '0' of undefined")
  | Some options_flags =>
      if starts_with_a options_flags then
        thunk FappendFile [file; VStr data; options_value options] None None
      else
        thunk FwriteFile [file; VStr data; options_value options] None None
  end.

Definition del (path : string) : K value := unlink path.

Definition exists_ (path : string) : K bool :=
  try_await (stat path)
    (λ _, return_ true)
    (λ err, if code_is err "ENOENT" then return_ false else throw err).

End Library.
End Legacy.

(** * The reference layer: a POSIX directory tree

    Directories, regular files and symbolic links, found by walking a path
    one component at a time.  A walk fails with [ENOENT], [ENOTDIR] or
    [ELOOP]; [fs.mkdir] fails, besides, with [EEXIST] and where the
    platform refuses to make the directory ([refusal] below); [fs.unlink]
    with [EISDIR]. *)

Module Posix.

Inductive node :=
| Dir (mode : Mode)
| File
| Symlink (target : string).

Record fsys := mkFsys {
  cwd : list string;                 (* the working directory, resolved *)
  tree : gmap (list string) node;    (* the entries below the root *)
  denied : gset (list string)        (* the directories that are off limits *)
}.

Definition root : node := Dir (ModeNum 493 (* 0o755 *)).

Definition node_at (t : gmap (list string) node) (p : list string) : option node :=
  match p with
  | [] => Some root
  | _ => t !! p
  end.

Definition is_dir (n : option node) : bool :=
  match n with
  | Some (Dir _) => true
  | _ => false
  end.

Definition stats_of (n : node) : Stats :=
  match n with
  | Dir _ => mkStats Directory
  | File => mkStats RegularFile
  | Symlink _ => mkStats SymbolicLink
  end.

(** Where a walk ends: at an entry, at a free name in an existing
    directory, or with an error code. *)
Inductive lookup :=
| Found (p : list string) (n : node)
| Missing (parent : list string) (name : string)
| Failed (code : string).

(** The number of symbolic links one walk follows before [ELOOP]. *)
Definition SYMLOOP_MAX : nat := 40.

(** Path resolution from the directory [cur] along [rest].  Links in the
    middle of a path are always followed; [follow] says whether a link in
    the last position is. *)
Fixpoint walk (hops : nat) (t : gmap (list string) node) (follow : bool)
    (cur rest : list string) {struct hops} : lookup :=
  (fix go (cur rest : list string) {struct rest} : lookup :=
     match rest with
     | [] =>
         match node_at t cur with
         | Some n => Found cur n
         | None => Failed "ENOENT"
         end
     | name :: rest' =>
         if decide (name = ".") then go cur rest'
         else if decide (name = "..") then go (removelast cur) rest'
         else
           match t !! (cur ++ [name]) with
           | None =>
               match rest' with
               | [] => Missing cur name
               | _ => Failed "ENOENT"
               end
           | Some (Dir _) => go (cur ++ [name]) rest'
           | Some File =>
               match rest' with
               | [] => Found (cur ++ [name]) File
               | _ => Failed "ENOTDIR"
               end
           | Some (Symlink target) =>
               if bool_decide (rest' = []) && negb follow
               then Found (cur ++ [name]) (Symlink target)
               else
                 match hops with
                 | O => Failed "ELOOP"
                 | S hops' =>
                     walk hops' t follow
                       (if Path.isAbsolute target then [] else cur)
                       (Path.components target ++ rest')
                 end
           end
     end) cur rest.

#[global] Arguments walk : simpl never.

Definition lookup_path (w : fsys) (follow : bool) (p : string) : lookup :=
  if decide (p = "") then Failed "ENOENT"
  else walk SYMLOOP_MAX (tree w) follow
         (if Path.isAbsolute p then [] else cwd w) (Path.components p).

(** ** What [fs.mkdir] refuses

    The directories in [denied] are those in which the platform lets
    the process make nothing for a reason that the tree does not show:
    they belong to another owner and are not open to others, or they
    are on a file system that is read-only or full.  The process owns
    the others, and its umask leaves the bits of the owner alone, so
    there the owner's bits decide: write and search, [0o300].  A mode is
    a number below [2^32] or a string of octal digits.  A name has at
    most [NAME_MAX] bytes, and a path fewer than [PATH_MAX]. *)

Definition NAME_MAX : Z := 255.
Definition PATH_MAX : Z := 4096.

Definition octal_digit (c : ascii) : option Z :=
  let n := Z.of_N (N_of_ascii c) in
  if bool_decide (48 ≤ n ≤ 55)%Z then Some (n - 48)%Z else None.

(** [parseInt(s, 8)] on a string of octal digits. *)
Fixpoint octal (acc : Z) (s : string) : option Z :=
  match s with
  | EmptyString => Some acc
  | String c s' =>
      match octal_digit c with
      | Some d => octal (8 * acc + d) s'
      | None => None
      end
  end.

(** The permission bits that a mode stands for, where it is one that
    [fs.mkdir] takes. *)
Definition mode_bits (m : Mode) : option Z :=
  match m with
  | ModeNum n => if bool_decide (0 ≤ n < 2 ^ 32)%Z then Some n else None
  | ModeStr EmptyString => None
  | ModeStr s =>
      match octal 0 s with
      | Some n => if bool_decide (n < 2 ^ 32)%Z then Some n else None
      | None => None
      end
  end.

(** The owner may write and search in a directory of mode [m]. *)
Definition grants (m : Mode) : bool :=
  match mode_bits m with
  | Some bits => bool_decide (Z.land bits 192 (* 0o300 *) = 192)%Z
  | None => false
  end.

(** The owner may search in a directory of mode [m].  The walk above
    does not look at this bit; the statements that need it ask for it. *)
Definition searches (m : Mode) : bool :=
  match mode_bits m with
  | Some bits => bool_decide (Z.land bits 64 (* 0o100 *) = 64)%Z
  | None => false
  end.

(** The error code with which the platform refuses to make the entry
    [name] in the directory [parent], for the call [fs.mkdir(p, mode)];
    [None] when it does not refuse.  (Node raises the first of the
    errors from the call itself; the layer has callbacks only, and
    reports it there.) *)
Definition refusal (off : gset (list string)) (t : gmap (list string) node)
    (p : string) (parent : list string) (name : string) (mode : Mode) : option string :=
  if bool_decide (mode_bits mode = None) then Some "ERR_INVALID_ARG_VALUE"
  else if bool_decide (PATH_MAX ≤ Z.of_nat (String.length p))%Z then Some "ENAMETOOLONG"
  else if bool_decide (NAME_MAX < Z.of_nat (String.length name))%Z then Some "ENAMETOOLONG"
  else if bool_decide (parent ∈ off) then Some "EACCES"
  else match node_at t parent with
       | Some (Dir m) => if grants m then None else Some "EACCES"
       | _ => None
       end.

Definition mkdir (p : string) (mode : Mode) (w : fsys) : fsys * option Error :=
  match lookup_path w false p with
  | Found _ _ => (w, Some (system_error "EEXIST" "mkdir" p))
  | Missing parent name =>
      match refusal (denied w) (tree w) p parent name mode with
      | Some c => (w, Some (system_error c "mkdir" p))
      | None =>
          (mkFsys (cwd w) (<[parent ++ [name] := Dir mode]> (tree w)) (denied w), None)
      end
  | Failed c => (w, Some (system_error c "mkdir" p))
  end.

Definition stat (p : string) (w : fsys) : fsys * (Error + Stats) :=
  match lookup_path w true p with
  | Found _ n => (w, inr (stats_of n))
  | Missing _ _ => (w, inl (system_error "ENOENT" "stat" p))
  | Failed c => (w, inl (system_error c "stat" p))
  end.

Definition lstat (p : string) (w : fsys) : fsys * (Error + Stats) :=
  match lookup_path w false p with
  | Found _ n => (w, inr (stats_of n))
  | Missing _ _ => (w, inl (system_error "ENOENT" "lstat" p))
  | Failed c => (w, inl (system_error c "lstat" p))
  end.

Definition access (p : string) (mode : optional Mode) (w : fsys) : fsys * option Error :=
  match lookup_path w true p with
  | Found _ _ => (w, None)
  | Missing _ _ => (w, Some (system_error "ENOENT" "access" p))
  | Failed c => (w, Some (system_error c "access" p))
  end.

Definition unlink (p : string) (w : fsys) : fsys * option Error :=
  match lookup_path w false p with
  | Found _ (Dir _) => (w, Some (system_error "EISDIR" "unlink" p))
  | Found q _ => (mkFsys (cwd w) (delete q (tree w)) (denied w), None)
  | Missing _ _ => (w, Some (system_error "ENOENT" "unlink" p))
  | Failed c => (w, Some (system_error c "unlink" p))
  end.

(** The [rimraf] package: the entry at [p] goes, with everything beneath
    it when it is a directory; a path with no entry is no error. *)
Definition remove_tree (p : string) (w : fsys) : fsys * option Error :=
  match lookup_path w false p with
  | Found q _ =>
      (mkFsys (cwd w) (filter (λ kv, ¬ q `prefix_of` kv.1) (tree w)) (denied w), None)
  | Missing _ _ => (w, None)
  | Failed c =>
      if decide (c = "ENOENT") then (w, None)
      else (w, Some (system_error c "unlink" p))
  end.

(** File contents and descriptors are outside this layer. *)
Definition other (f : fs_function) (args : list value) (w : fsys) : fsys * callback_args :=
  (w, (Some (system_error "ENOSYS" "" ""), [])).

Definition layer : Layer :=
  {| World := fsys;
     process_cwd w := Path.join (cwd w);
     fs_mkdir := mkdir;
     fs_stat := stat;
     fs_lstat := lstat;
     fs_access := access;
     fs_unlink := unlink;
     rimraf_run := remove_tree;
     fs_other := other |}.

End Posix.

(** * Scripted layers

    A layer that answers every call from a script and keeps the list of
    the calls it has received, in order. *)

Module Scripted.

Inductive primitive := Fs_call (f : fs_function) | Rimraf_call.

Definition call : Type := primitive * list value.

Record script := mkScript {
  on_mkdir : string → option Error;
  on_stat : string → Error + Stats;
  on_lstat : string → Error + Stats;
  on_access : string → option Error;
  on_unlink : string → option Error;
  on_rimraf : string → option Error;
  on_other : fs_function → list value → callback_args
}.

Definition layer (s : script) : Layer :=
  {| World := list call;
     process_cwd _ := "/";
     fs_mkdir p m log :=
       (log ++ [(Fs_call Fmkdir, [VStr p; mode_value m])], on_mkdir s p);
     fs_stat p log := (log ++ [(Fs_call Fstat, [VStr p])], on_stat s p);
     fs_lstat p log := (log ++ [(Fs_call Flstat, [VStr p])], on_lstat s p);
     fs_access p m log :=
       (log ++ [(Fs_call Faccess, [VStr p; optional_value mode_value m])], on_access s p);
     fs_unlink p log := (log ++ [(Fs_call Funlink, [VStr p])], on_unlink s p);
     rimraf_run p log := (log ++ [(Rimraf_call, [VStr p])], on_rimraf s p);
     fs_other f args log := (log ++ [(Fs_call f, args)], on_other s f args) |}.

(** Every call succeeds; [stat] and [lstat] report a regular file,
    [fs.read] and [fs.write] five bytes. *)
Definition hello : list Z := [104; 101; 108; 108; 111]%Z.

Definition granted : script :=
  {| on_mkdir _ := None;
     on_stat _ := inr (mkStats RegularFile);
     on_lstat _ := inr (mkStats RegularFile);
     on_access _ := None;
     on_unlink _ := None;
     on_rimraf _ := None;
     on_other f _ :=
       match f with
       | Fread | Fwrite => (None, [VNum 5; VBuffer hello])
       | _ => (None, [])
       end |}.

(** A directory that may not be written to: nothing can be made in it,
    and nothing is there. *)
Definition denied : script :=
  {| on_mkdir p := Some (system_error "EACCES" "mkdir" p);
     on_stat p := inl (system_error "ENOENT" "stat" p);
     on_lstat p := inl (system_error "ENOENT" "lstat" p);
     on_access p := Some (system_error "EACCES" "access" p);
     on_unlink p := Some (system_error "EACCES" "unlink" p);
     on_rimraf p := Some (system_error "EACCES" "rmdir" p);
     on_other f _ := (Some (system_error "EACCES" "" ""), []) |}.

End Scripted.

(** * Vocabulary of the statements *)

Module Spec.

Fixpoint has_slash (s : string) : bool :=
  match s with
  | EmptyString => false
  | String c s' => Path.is_slash c || has_slash s'
  end.

(** A name that can stand for one entry of a directory. *)
Definition plain (s : string) : Prop :=
  s ≠ "" ∧ has_slash s = false ∧ s ≠ "." ∧ s ≠ "..".

(** The components of [path.resolve(p)]: the entries that a call on [p]
    is about, from the root down to [p] itself. *)
Definition segments (cwd p : string) : list string :=
  Path.normalize (Path.components (if Path.isAbsolute p then p else cwd +:+ "/" +:+ p)).

(** The root, the ancestors of [segs] and [segs] itself, from the root
    down. *)
Definition lineage (segs : list string) : list (list string) :=
  (λ n, take n segs) <$> seq 0 (S (length segs)).

(** No entry other than a directory stands on the way to [segs], or at
    [segs] itself. *)
Definition clear_way (t : gmap (list string) Posix.node) (segs : list string) : bool :=
  forallb (λ q, match Posix.node_at t q with
                | None => true
                | Some n => Posix.is_dir (Some n)
                end) (lineage segs).

(** The same, as the proofs use it. *)
Definition unobstructed (t : gmap (list string) Posix.node) (segs : list string) : Prop :=
  ∀ q, q `prefix_of` segs →
       Posix.node_at t q = None ∨ Posix.is_dir (Posix.node_at t q) = true.

(** The platform refuses none of the directories that are missing on
    the way to [segs] to a caller that asks for them with [mode]: the
    resolved path and its names are within the limits, [mode] is one
    that [fs.mkdir] takes, the owner may search every directory that is
    on the way already, and wherever an entry is missing, the directory
    to make it in is not off limits and lets the owner write and search,
    by its own mode when it is there and by [mode] when it is still to
    be made. *)
Definition permitted (w : Posix.fsys) (segs : list string) (mode : Mode) : bool :=
  bool_decide (Z.of_nat (String.length (Path.join segs)) < Posix.PATH_MAX)%Z &&
  forallb (λ name, bool_decide (Z.of_nat (String.length name) ≤ Posix.NAME_MAX)%Z) segs &&
  bool_decide (Posix.mode_bits mode ≠ None) &&
  forallb (λ q, match Posix.node_at (Posix.tree w) q with
                | Some (Posix.Dir m) => Posix.searches m
                | Some _ => true
                | None =>
                    bool_decide (removelast q ∉ Posix.denied w) &&
                    match Posix.node_at (Posix.tree w) (removelast q) with
                    | Some (Posix.Dir m) => Posix.grants m
                    | _ => Posix.grants mode
                    end
                end) (lineage segs).

(** What the proofs use of it. *)
Definition unrefused (off : gset (list string)) (t : gmap (list string) Posix.node)
    (segs : list string) (mode : Mode) : Prop :=
  (Z.of_nat (String.length (Path.join segs)) < Posix.PATH_MAX)%Z ∧
  Forall (λ name, (Z.of_nat (String.length name) ≤ Posix.NAME_MAX)%Z) segs ∧
  Posix.mode_bits mode ≠ None ∧
  ∀ parent name, (parent ++ [name]) `prefix_of` segs → t !! (parent ++ [name]) = None →
    (parent ∉ off) ∧
    (if Posix.node_at t parent is Some (Posix.Dir m)
     then Posix.grants m else Posix.grants mode) = true.

(** [segs] and all that is above it are directories. *)
Definition all_directories (t : gmap (list string) Posix.node) (segs : list string) : bool :=
  forallb (λ q, Posix.is_dir (Posix.node_at t q)) (lineage segs).

(** The error that [mkdirp] makes up for a path that is taken. *)
Definition conflict_error (path : string) : Error :=
  new_Error (path +:+ " is already a file").

(** [p] names a symbolic link, and following it leads to no entry. *)
Definition dangling (w : Posix.fsys) (p : string) : bool :=
  match Posix.lookup_path w false p with
  | Posix.Found _ (Posix.Symlink _) =>
      match Posix.lookup_path w true p with
      | Posix.Found _ _ => false
      | Posix.Missing _ _ => true
      | Posix.Failed c => bool_decide (c = "ENOENT")
      end
  | _ => false
  end.

(** The flag string that an open mode of the first interface stands for. *)
Definition flag_string (flags : OpenFlags.t + string) : string :=
  match flags with
  | inl f => Legacy.openFlags f
  | inr s => s
  end.

(** How a promise ends that follows a callback with the one argument
    [err]. *)
Definition outcome {T} (v : T) (err : option Error) : promise T :=
  match err with
  | None => Resolved v
  | Some e => Rejected e
  end.

(** What [createDirectory] makes of the argument of [done]. *)
Definition settle `{Layer} (err : option Error) : K unit :=
  match err with
  | None => λ w, (w, Resolved tt)
  | Some e => λ w, (w, Rejected e)
  end.

(** Running [done] from where a settled run has ended. *)
Definition and_then `{Layer} (r : World * promise unit)
    (done : option Error → K unit) : World * promise unit :=
  match r with
  | (w, Resolved _) => done None w
  | (w, Rejected e) => done (Some e) w
  | (w, Pending) => (w, Pending)
  end.

(** ** Statements as the specification words them *)

(** "For all paths [p] with no existing ancestors, [ensureDirectory(p)]
    succeeds and every ancestor of [p] up to and including [p] exists as
    a directory afterward", for every path whose way is clear and
    whatever the mode. *)
Definition makes_every_clear_way : Prop :=
  ∀ (w : Posix.fsys) p mode fuel,
    length (segments (process_cwd (Layer := Posix.layer) w) p) < fuel →
    clear_way (Posix.tree w) (segments (process_cwd (Layer := Posix.layer) w) p) = true →
    ∃ w', AsyncFile.createDirectory (H := Posix.layer) fuel p mode w = (w', Resolved tt) ∧
          all_directories (Posix.tree w')
            (segments (process_cwd (Layer := Posix.layer) w) p) = true.

(** "Any other failure from the creation call propagates unchanged":
    an error of [fs.mkdir] that is neither [ENOENT] nor [EEXIST] is what
    the promise is rejected with, and nothing else is called. *)
Definition surfaces_other_errors (L : Layer) : Prop :=
  ∀ fuel p mode (w w1 : World) err,
    fs_mkdir (pathutil.resolve p w) (default (ModeNum 511) mode) w = (w1, Some err) →
    code err ≠ Some "ENOENT" → code err ≠ Some "EEXIST" →
    AsyncFile.createDirectory (S fuel) p mode w = (w1, Rejected err).


(** "[exists] on a dangling symlink returns [true]". *)
Definition sees_dangling_links
    (exists_ : string → Posix.fsys → Posix.fsys * promise bool) : Prop :=
  ∀ w p, dangling w p = true → exists_ p w = (w, Resolved true).

(** "[del] succeeds or fails exactly as [removeRecursively(p)] does", and
    leaves what it leaves. *)
Definition deletes_recursively {T} (L : Layer) (v : T)
    (del : string → World → World * promise T) : Prop :=
  ∀ p w, del p w = ((rimraf_run p w).1, outcome v (rimraf_run p w).2).

End Spec.

(** * Sample worlds

    In each of them the process may write wherever the modes let the
    owner write. *)

Module Sample.
Import Posix.

(** [/home], and nothing in it; the process runs there. *)
Definition home : fsys :=
  mkFsys ["home"] {[ ["home"] := Dir (ModeNum 493) ]} ∅.

(** [/home] after [createDirectory('a/b')]. *)
Definition home_a_b : fsys :=
  mkFsys ["home"] {[ ["home"] := Dir (ModeNum 493);
                     ["home"; "a"] := Dir (ModeNum 511);
                     ["home"; "a"; "b"] := Dir (ModeNum 511) ]} ∅.

(** A regular file [/a]. *)
Definition blocked : fsys :=
  mkFsys [] {[ ["a"] := File ]} ∅.

(** A link [/latest] to [/releases/7], which is not there. *)
Definition stale : fsys :=
  mkFsys [] {[ ["releases"] := Dir (ModeNum 493);
               ["latest"] := Symlink "/releases/7" ]} ∅.

(** A directory [/d] with a file in it. *)
Definition full : fsys :=
  mkFsys [] {[ ["d"] := Dir (ModeNum 493); ["d"; "f"] := File ]} ∅.

(** [read(3, buffer, 0, 5, 0)]: five bytes from the start of the file
    behind descriptor 3, to the start of an empty buffer. *)
Definition buffer : list Z := [0; 0; 0; 0; 0]%Z.

Definition read_arguments : list value :=
  [VNum 3; VBuffer buffer; VNum 0; VNum 5; VNum 0].

End Sample.

(** * Further vocabulary *)

Module Cover.

(** The open modes of the first interface whose name says "append". *)
Definition appends (f : OpenFlags.t) : bool :=
  match f with
  | OpenFlags.append | OpenFlags.appendNoOverwrite
  | OpenFlags.appendRead | OpenFlags.appendReadNoOverwrite => true
  | _ => false
  end.

(** A drive that is not there: [fs.mkdir] finds no directory to make
    anything in, whatever the path, the root included. *)
Definition no_drive : Scripted.script :=
  {| Scripted.on_mkdir p := Some (system_error "ENOENT" "mkdir" p);
     Scripted.on_stat p := inl (system_error "ENOENT" "stat" p);
     Scripted.on_lstat p := inl (system_error "ENOENT" "lstat" p);
     Scripted.on_access p := Some (system_error "ENOENT" "access" p);
     Scripted.on_unlink p := Some (system_error "ENOENT" "unlink" p);
     Scripted.on_rimraf p := None;
     Scripted.on_other f _ := (Some (system_error "ENOENT" "" ""), []) |}.

(** What one run may do to the entry at a key: leave it, or put a
    directory of the given mode where there was nothing. *)
Definition kept_or_made (mode : Mode) (k : list string)
    (before after : option Posix.node) : Prop :=
  after = before ∨ (k ≠ [] ∧ before = None ∧ after = Some (Posix.Dir mode)).

(** [/home] with a link [/home/up] to the root, and a file [/home/notes]. *)
Definition linked : Posix.fsys :=
  Posix.mkFsys ["home"]
    {[ ["home"] := Posix.Dir (ModeNum 493);
       ["home"; "up"] := Posix.Symlink "/";
       ["home"; "notes"] := Posix.File ]} ∅.

End Cover.

(** * The model at work *)

Section Examples.
Import Posix.

Example resolve_examples :
  Path.resolve "/home/u" "x/../y/./z" = "/home/u/y/z" ∧
  Path.resolve "/home/u" "/x//y/" = "/x/y" ∧
  Path.resolve "/home/u" "" = "/home/u" ∧
  Path.resolve "/" "../.." = "/".
Proof. vm_compute. repeat split; reflexivity. Qed.

Example dirname_examples :
  Path.dirname <$> ["/a/b/c"; "/a"; "/"; "a/b"; "a"; ""; "/a/b/"]
  = ["/a/b"; "/"; "/"; "a"; "."; "."; "/a"].
Proof. vm_compute. reflexivity. Qed.

(** [createDirectory('a/b')] in [/home] makes [/home/a] and
    [/home/a/b]. *)
Example createDirectory_in_home :
  AsyncFile.createDirectory (H := layer) 4 "a/b" None Sample.home
  = (Sample.home_a_b, Resolved tt).
Proof. vm_compute. reflexivity. Qed.

Example exists_in_home :
  AsyncFile.exists_ (H := layer) "/home/a" Sample.home_a_b = (Sample.home_a_b, Resolved true) ∧
  AsyncFile.exists_ (H := layer) "/home/c" Sample.home_a_b = (Sample.home_a_b, Resolved false).
Proof. vm_compute. split; reflexivity. Qed.

(** Three nested calls are needed for [a/b/c] in [/home]: with fuel for
    two, the run ends before [done] is called. *)
Example createDirectory_out_of_fuel :
  AsyncFile.createDirectory (H := layer) 2 "a/b/c" None Sample.home = (Sample.home, Pending).
Proof. vm_compute. reflexivity. Qed.

(** Through the link [/latest], once its target is there. *)
Example createDirectory_through_a_link :
  is_dir (tree (AsyncFile.createDirectory (H := layer) 3 "/latest/bin" None
                  (AsyncFile.createDirectory (H := layer) 3 "/releases/7" None
                     Sample.stale).1).1
          !! ["releases"; "7"; "bin"]) = true.
Proof. vm_compute. reflexivity. Qed.

End Examples.

(** * Paths *)

Section PathFacts.
Import Path Spec.

Lemma append_nil_l (r : string) : "" +:+ r = r.
Proof. reflexivity. Qed.

Lemma append_cons (c : ascii) (s r : string) : String c s +:+ r = String c (s +:+ r).
Proof. reflexivity. Qed.

Lemma append_empty_r (s : string) : s +:+ "" = s.
Proof. induction s as [|c s IH]; [done | by rewrite append_cons, IH]. Qed.

Lemma append_assoc (a b c : string) : (a +:+ b) +:+ c = a +:+ b +:+ c.
Proof. induction a as [|x a IH]; [done | by rewrite !append_cons, IH]. Qed.

Lemma length_append (a b : string) :
  String.length (a +:+ b) = String.length a + String.length b.
Proof. induction a as [|x a IH]; [done | rewrite append_cons; simpl; by rewrite IH]. Qed.

Lemma length_joined_app (q r : list string) :
  String.length (foldr (λ seg rest, "/" +:+ seg +:+ rest) "" (q ++ r)) =
  String.length (foldr (λ seg rest, "/" +:+ seg +:+ rest) "" q) +
  String.length (foldr (λ seg rest, "/" +:+ seg +:+ rest) "" r).
Proof.
  induction q as [|x q IH]; [done |].
  cbn [app foldr]. rewrite !length_append, IH. lia.
Qed.

(** The path of an ancestor is no longer than the path. *)
Lemma length_join_prefix (q segs : list string) :
  q `prefix_of` segs → String.length (join q) ≤ String.length (join segs).
Proof.
  intros [r ->]. destruct q as [|x q].
  - destruct r as [|y r]; [done |]. unfold join. cbn [app foldr].
    rewrite length_append. simpl. lia.
  - change (join ((x :: q) ++ r))
      with (foldr (λ seg rest, "/" +:+ seg +:+ rest) "" ((x :: q) ++ r)).
    change (join (x :: q)) with (foldr (λ seg rest, "/" +:+ seg +:+ rest) "" (x :: q)).
    rewrite length_joined_app. lia.
Qed.

Lemma chars_append (a b : string) :
  list_ascii_of_string (a +:+ b) = list_ascii_of_string a ++ list_ascii_of_string b.
Proof. induction a as [|x a IH]; [done | rewrite append_cons; simpl; by rewrite IH]. Qed.

Lemma split_cons (s : string) : ∃ h t, split s = h :: t.
Proof.
  induction s as [|c s (h & t & IH)]; simpl; [by eauto |].
  destruct (is_slash c); [by eauto |]. rewrite IH. by eauto.
Qed.

Lemma split_append_slash (a b : string) : split (a +:+ "/" +:+ b) = split a ++ split b.
Proof.
  induction a as [|c a IH]; [done |].
  rewrite append_cons. simpl. rewrite IH. destruct (is_slash c); [done |].
  by destruct (split_cons a) as (h & t & ->).
Qed.

Lemma components_append_slash (a b : string) :
  components (a +:+ "/" +:+ b) = components a ++ components b.
Proof. unfold components. by rewrite split_append_slash, filter_app. Qed.

(** A name and the [..] after it go together, whatever the name. *)
Lemma normalize_cancel (xs ys : list string) (name : string) :
  name ≠ "." → name ≠ ".." →
  normalize (xs ++ name :: ".." :: ys) = normalize (xs ++ ys).
Proof.
  intros Hdot Hdots. unfold normalize. rewrite !foldl_app. cbn [foldl]. f_equal.
  generalize (foldl normalize_step [] xs). intros acc.
  unfold normalize_step. repeat case_decide; try done. apply removelast_last.
Qed.

Lemma split_append_name (seg rest h : string) (t : list string) :
  has_slash seg = false → split rest = h :: t →
  split (seg +:+ rest) = (seg +:+ h) :: t.
Proof.
  intros Hseg Hrest. induction seg as [|c seg IH]; [done |].
  simpl in Hseg. apply orb_false_iff in Hseg as [Hc Hseg].
  rewrite !append_cons. simpl. by rewrite Hc, (IH Hseg).
Qed.

Lemma split_joined (segs : list string) :
  Forall (λ s, has_slash s = false) segs →
  split (foldr (λ seg rest, "/" +:+ seg +:+ rest) "" segs) = "" :: segs.
Proof.
  induction 1 as [|seg segs Hseg _ IH]; [done |].
  cbn [foldr]. rewrite append_cons, append_nil_l. cbn [split].
  replace (is_slash "/") with true by done.
  by rewrite (split_append_name _ _ _ _ Hseg IH), append_empty_r.
Qed.

Lemma components_join (segs : list string) :
  Forall plain segs → components (join segs) = segs.
Proof.
  intros Hsegs. destruct segs as [|seg segs]; [done |].
  unfold components, join. rewrite split_joined.
  - rewrite filter_cons_False by naive_solver.
    induction Hsegs as [|x l [Hx _] _ IH]; [done |].
    by rewrite filter_cons_True, IH.
  - eapply Forall_impl; [done |]. by intros ? (_ & ? & _).
Qed.

Lemma isAbsolute_join (segs : list string) : isAbsolute (join segs) = true.
Proof. by destruct segs. Qed.

Lemma join_nonempty (segs : list string) : join segs ≠ "".
Proof. by destruct segs. Qed.

Lemma split_no_slash (s : string) : Forall (λ seg, has_slash seg = false) (split s).
Proof.
  induction s as [|c s IH]; simpl; [by repeat constructor |].
  destruct (is_slash c) eqn:Hc; [by constructor |].
  destruct (split s) as [|h t]; inversion IH; subst;
    constructor; simpl; rewrite ?Hc; auto.
Qed.

Lemma components_names (p : string) :
  Forall (λ seg, seg ≠ "" ∧ has_slash seg = false) (components p).
Proof.
  unfold components. apply Forall_forall. intros seg Hin.
  apply list_elem_of_filter in Hin as [Hne Hin]. split; [done |].
  pose proof (split_no_slash p) as Hall.
  by apply (proj1 (Forall_forall _ _) Hall).
Qed.

Lemma Forall_removelast {A} (P : A → Prop) (l : list A) :
  Forall P l → Forall P (removelast l).
Proof.
  induction 1 as [|x l Hx Hl IH]; simpl; [constructor |].
  destruct l; [constructor | by constructor].
Qed.

Lemma normalize_from_plain (acc segs : list string) :
  Forall plain acc →
  Forall (λ seg, seg ≠ "" ∧ has_slash seg = false) segs →
  Forall plain (foldl normalize_step acc segs).
Proof.
  intros Hacc Hsegs. revert acc Hacc.
  induction Hsegs as [|seg segs [Hne Hslash] _ IH]; intros acc Hacc; simpl; [done |].
  apply IH. unfold normalize_step. repeat case_decide.
  - done.
  - by apply Forall_removelast.
  - apply Forall_app. split; [done |]. by repeat constructor.
Qed.

Lemma segments_plain (cwd p : string) : Forall plain (segments cwd p).
Proof. apply normalize_from_plain; [constructor | apply components_names]. Qed.

Lemma normalize_from_id (acc segs : list string) :
  Forall plain segs → foldl normalize_step acc segs = acc ++ segs.
Proof.
  intros Hsegs. revert acc.
  induction Hsegs as [|seg segs (_ & _ & Hdot & Hdots) _ IH]; intros acc; simpl.
  - by rewrite app_nil_r.
  - unfold normalize_step at 2. rewrite !decide_False by done.
    by rewrite IH, <- app_assoc.
Qed.

Lemma resolve_segments (cwd p : string) : resolve cwd p = join (segments cwd p).
Proof. reflexivity. Qed.

Lemma segments_join (cwd : string) (segs : list string) :
  Forall plain segs → segments cwd (join segs) = segs.
Proof.
  intros Hsegs. unfold segments. rewrite isAbsolute_join, components_join by done.
  by apply (normalize_from_id []).
Qed.

(** [path.resolve] leaves its own results alone. *)
Lemma resolve_join (cwd : string) (segs : list string) :
  Forall plain segs → resolve cwd (join segs) = join segs.
Proof. intros Hsegs. by rewrite resolve_segments, segments_join. Qed.

Lemma drop_while_app_all {A} (f : A → bool) (l r : list A) :
  Forall (λ x, f x = true) l → drop_while f (l ++ r) = drop_while f r.
Proof. induction 1 as [|x l Hx _ IH]; simpl; [done | by rewrite Hx]. Qed.

Lemma chars_no_slash (s : string) :
  has_slash s = false →
  Forall (λ c, negb (is_slash c) = true) (list_ascii_of_string s).
Proof.
  induction s as [|c s IH]; simpl; [constructor |].
  intros [Hc Hs]%orb_false_iff. constructor; [by rewrite Hc | auto].
Qed.

Lemma joined_snoc (segs : list string) (seg : string) :
  foldr (λ seg rest, "/" +:+ seg +:+ rest) "" (segs ++ [seg]) =
  foldr (λ seg rest, "/" +:+ seg +:+ rest) "" segs +:+ "/" +:+ seg.
Proof.
  induction segs as [|x segs IH]; simpl.
  - by rewrite append_empty_r.
  - by rewrite IH, !append_cons, !append_nil_l, !append_assoc.
Qed.

Lemma drop_while_app_none {A} (f : A → bool) (l r : list A) :
  l ≠ [] → Forall (λ x, f x = false) l → drop_while f (l ++ r) = l ++ r.
Proof. intros Hl Hall. destruct Hall as [|x l Hx _]; [done |]. simpl. by rewrite Hx. Qed.

Lemma reverse_chars_name (seg : string) :
  seg ≠ "" → has_slash seg = false →
  reverse (list_ascii_of_string seg) ≠ [] ∧
  Forall (λ c, is_slash c = false) (reverse (list_ascii_of_string seg)).
Proof.
  intros Hne Hslash. split.
  - destruct seg; [done |]. simpl.
    intros Hnil%(f_equal length). by rewrite length_reverse in Hnil.
  - apply Forall_reverse. eapply Forall_impl; [by apply chars_no_slash |].
    intros c; simpl. by destruct (is_slash c).
Qed.

(** [path.dirname] of a resolved path drops its last component. *)
Lemma dirname_join (segs : list string) (seg : string) :
  Forall plain segs → plain seg →
  dirname (join (segs ++ [seg])) = join segs.
Proof.
  intros Hsegs (Hne & Hslash & _).
  assert (Hjoin : ∀ l : list string, l ≠ [] →
    join l = foldr (λ seg rest, "/" +:+ seg +:+ rest) "" l) by (by intros []).
  rewrite Hjoin by (by destruct segs). rewrite joined_snoc.
  destruct (reverse_chars_name seg Hne Hslash) as [Hrev Hnone].
  assert (Hname : Forall (λ c, negb (is_slash c) = true)
                    (reverse (list_ascii_of_string seg))).
  { eapply Forall_impl; [done |]. by intros c ->. }
  destruct segs as [|x segs].
  - cbn [foldr]. rewrite append_nil_l, append_cons, append_nil_l. unfold dirname.
    rewrite <- (app_nil_r (reverse _)).
    by rewrite drop_while_app_none, drop_while_app_all.
  - inversion Hsegs as [|? ? (Hx & _) _]; subst. cbn [foldr].
    rewrite !append_cons, !append_nil_l, !append_assoc. unfold dirname.
    rewrite <- append_assoc, chars_append. cbn [list_ascii_of_string].
    rewrite reverse_app, reverse_cons, <- !app_assoc. cbn [app].
    set (body := x +:+ foldr (λ seg rest, "/" +:+ seg +:+ rest) "" segs).
    rewrite drop_while_app_none, drop_while_app_all by done.
    cbn [drop_while]. replace (is_slash "/") with true by done. cbn [negb].
    assert (Hbody : reverse (list_ascii_of_string body) ≠ []).
    { subst body. destruct x as [|c x]; [done |]. rewrite append_cons. simpl.
      intros Hnil%(f_equal length). by rewrite length_reverse in Hnil. }
    rewrite bool_decide_eq_false_2 by done. cbn [andb].
    by rewrite reverse_involutive, string_of_list_ascii_of_string.
Qed.
End PathFacts.

(** * Walking the reference tree *)

Section WalkFacts.
Import Path Spec Posix.
Implicit Types (t : gmap (list string) node) (cur rest segs : list string).

Lemma walk_nil hops t follow cur :
  walk hops t follow cur [] =
  match node_at t cur with Some n => Found cur n | None => Failed "ENOENT" end.
Proof. by destruct hops. Qed.

(** One step of a walk, for any name. *)
Lemma walk_step hops t follow cur name rest :
  walk hops t follow cur (name :: rest) =
  if decide (name = ".") then walk hops t follow cur rest
  else if decide (name = "..") then walk hops t follow (removelast cur) rest
  else
    match t !! (cur ++ [name]) with
    | None => match rest with [] => Missing cur name | _ => Failed "ENOENT" end
    | Some (Dir _) => walk hops t follow (cur ++ [name]) rest
    | Some File => match rest with [] => Found (cur ++ [name]) File | _ => Failed "ENOTDIR" end
    | Some (Symlink target) =>
        if bool_decide (rest = []) && negb follow
        then Found (cur ++ [name]) (Symlink target)
        else match hops with
             | O => Failed "ELOOP"
             | S hops' =>
                 walk hops' t follow (if isAbsolute target then [] else cur)
                   (components target ++ rest)
             end
    end.
Proof. by destruct hops. Qed.

(** One step along a plain name. *)
Lemma walk_cons hops t follow cur name rest :
  plain name →
  walk hops t follow cur (name :: rest) =
  match t !! (cur ++ [name]) with
  | None => match rest with [] => Missing cur name | _ => Failed "ENOENT" end
  | Some (Dir _) => walk hops t follow (cur ++ [name]) rest
  | Some File => match rest with [] => Found (cur ++ [name]) File | _ => Failed "ENOTDIR" end
  | Some (Symlink target) =>
      if bool_decide (rest = []) && negb follow
      then Found (cur ++ [name]) (Symlink target)
      else match hops with
           | O => Failed "ELOOP"
           | S hops' =>
               walk hops' t follow (if isAbsolute target then [] else cur)
                 (components target ++ rest)
           end
  end.
Proof.
  intros (_ & _ & Hdot & Hdots).
  by rewrite walk_step, !decide_False by done.
Qed.

Lemma node_at_snoc t cur name : node_at t (cur ++ [name]) = t !! (cur ++ [name]).
Proof. by destruct cur. Qed.

(** Going down through directories. *)
Lemma walk_descend hops t follow cur segs rest :
  Forall plain segs →
  (∀ q, q ≠ [] → q `prefix_of` segs → is_dir (t !! (cur ++ q)) = true) →
  walk hops t follow cur (segs ++ rest) = walk hops t follow (cur ++ segs) rest.
Proof.
  intros Hsegs. revert cur.
  induction Hsegs as [|name segs Hname _ IH]; intros cur Hdirs; simpl.
  - by rewrite app_nil_r.
  - rewrite walk_cons by done.
    pose proof (Hdirs [name] ltac:(done) ltac:(by apply prefix_cons, prefix_nil)) as Hd.
    destruct (t !! (cur ++ [name])) as [[]|]; try done.
    rewrite IH, <- app_assoc; [done |].
    intros q Hq Hpre. rewrite <- app_assoc. apply Hdirs; [done |].
    by apply prefix_cons.
Qed.

(** The walk along a resolved path starts at the root. *)
Lemma lookup_path_join (w : fsys) follow segs :
  Forall plain segs →
  lookup_path w follow (join segs) = walk SYMLOOP_MAX (tree w) follow [] segs.
Proof.
  intros Hsegs. unfold lookup_path.
  rewrite decide_False by apply join_nonempty.
  by rewrite isAbsolute_join, components_join.
Qed.
End WalkFacts.

(** * [mkdirp] over any layer *)

Section MkdirpFacts.
Import Spec AsyncFile.
Context `{Layer}.

Lemma createDirectory_mkdirp fuel p mode :
  createDirectory fuel p mode = mkdirp fuel p (default (ModeNum 511) mode) settle.
Proof. reflexivity. Qed.

(** [mkdirp] calls [done] once, at its end, or never. *)
Lemma mkdirp_factor fuel p mode callback w :
  mkdirp fuel p mode callback w = and_then (mkdirp fuel p mode settle w) callback.
Proof.
  revert p callback w. induction fuel as [|fuel IH]; intros p callback w; [done |].
  cbn [mkdirp]. unfold fs.mkdir, fs.stat.
  destruct (fs_mkdir (pathutil.resolve p w) mode w) as [w1 [err|]]; [| done].
  destruct (code_is err "ENOENT").
  - rewrite IH. rewrite (IH _ (λ err, match err with None => _ | Some _ => _ end)).
    destruct (mkdirp fuel _ mode settle w1) as [w2 [| [] |e]]; simpl; [done | | done].
    by rewrite IH.
  - destruct (fs_stat (pathutil.resolve p w) w1) as [w2 [err2|st]]; [done |].
    by destruct (negb (isDirectory st)).
Qed.

(** The step of [createDirectory] when [fs.mkdir] reports [ENOENT]: the
    parent first, then [path] again. *)
Lemma createDirectory_ENOENT fuel p mode w w1 err :
  fs_mkdir (pathutil.resolve p w) (default (ModeNum 511) mode) w = (w1, Some err) →
  code err = Some "ENOENT" →
  createDirectory (S fuel) p mode w =
  match createDirectory fuel (pathutil.dirname (pathutil.resolve p w)) mode w1 with
  | (w2, Resolved _) => createDirectory fuel (pathutil.resolve p w) mode w2
  | (w2, Rejected e) => (w2, Rejected e)
  | (w2, Pending) => (w2, Pending)
  end.
Proof.
  intros Hmkdir Hcode. rewrite !createDirectory_mkdirp.
  cbn [mkdirp]. unfold fs.mkdir. rewrite Hmkdir.
  unfold code_is. rewrite bool_decide_eq_true_2 by done.
  rewrite mkdirp_factor.
  by destruct (mkdirp fuel _ _ settle w1) as [w2 [| [] |e]].
Qed.

(** The step of [createDirectory] on any other error of [fs.mkdir]. *)
Lemma createDirectory_other fuel p mode w w1 err :
  fs_mkdir (pathutil.resolve p w) (default (ModeNum 511) mode) w = (w1, Some err) →
  code err ≠ Some "ENOENT" →
  createDirectory (S fuel) p mode w =
  let '(w2, r) := fs_stat (pathutil.resolve p w) w1 in
  (w2, match r with
       | inl err2 => Rejected err2
       | inr st =>
           if isDirectory st then Resolved tt
           else Rejected (new_Error (pathutil.resolve p w +:+ " is already a file"))
       end).
Proof.
  intros Hmkdir Hcode. rewrite createDirectory_mkdirp.
  cbn [mkdirp]. unfold fs.mkdir, fs.stat. rewrite Hmkdir.
  unfold code_is. rewrite bool_decide_eq_false_2 by done.
  destruct (fs_stat _ w1) as [w2 [err2|st]]; [done |].
  by destruct (isDirectory st).
Qed.

Lemma createDirectory_created fuel p mode w w1 :
  fs_mkdir (pathutil.resolve p w) (default (ModeNum 511) mode) w = (w1, None) →
  createDirectory (S fuel) p mode w = (w1, Resolved tt).
Proof.
  intros Hmkdir. rewrite createDirectory_mkdirp.
  cbn [mkdirp]. unfold fs.mkdir. by rewrite Hmkdir.
Qed.

(** [mkdirp] resolves its path before anything else. *)
Lemma createDirectory_resolve fuel p mode w :
  createDirectory fuel p mode w = createDirectory fuel (pathutil.resolve p w) mode w.
Proof.
  rewrite !createDirectory_mkdirp. destruct fuel as [|fuel]; [done |].
  cbn [mkdirp]. unfold pathutil.resolve.
  by rewrite (resolve_segments _ p),
    (resolve_join _ _ (segments_plain _ p)), <- resolve_segments.
Qed.
End MkdirpFacts.

(** * [createDirectory] on the reference tree *)

Section PosixMkdirp.
Import Path Spec Posix AsyncFile.
Local Existing Instance Posix.layer.
Implicit Types (t : gmap (list string) node) (segs : list string) (w : fsys).

Lemma resolve_join_posix w segs :
  Forall plain segs → pathutil.resolve (join segs) w = join segs.
Proof. intros Hsegs. unfold pathutil.resolve. by apply resolve_join. Qed.

Lemma mkdir_join w segs mode :
  Forall plain segs →
  fs_mkdir (pathutil.resolve (join segs) w) mode w =
  match walk SYMLOOP_MAX (tree w) false [] segs with
  | Found _ _ => (w, Some (system_error "EEXIST" "mkdir" (join segs)))
  | Missing parent name =>
      match refusal (denied w) (tree w) (join segs) parent name mode with
      | Some c => (w, Some (system_error c "mkdir" (join segs)))
      | None =>
          (mkFsys (cwd w) (<[parent ++ [name] := Dir mode]> (tree w)) (denied w), None)
      end
  | Failed c => (w, Some (system_error c "mkdir" (join segs)))
  end.
Proof.
  intros Hsegs. rewrite resolve_join_posix by done.
  change (fs_mkdir ?p ?m ?w) with (Posix.mkdir p m w). unfold Posix.mkdir.
  by rewrite lookup_path_join.
Qed.

(** A refusal is never [ENOENT]. *)
Lemma refusal_code off t p parent name mode c :
  refusal off t p parent name mode = Some c → c ≠ "ENOENT".
Proof.
  unfold refusal. repeat case_bool_decide; try by intros [= <-].
  destruct (node_at t parent) as [[m| |]|]; try done.
  destruct (grants m); [done |]. by intros [= <-].
Qed.

(** Where nothing is refused on the way to [segs], nothing is on the way
    to an ancestor. *)
Lemma unrefused_prefix off t q segs mode :
  q `prefix_of` segs → unrefused off t segs mode → unrefused off t q mode.
Proof.
  intros Hpre (Hpath & Hnames & Hmode & Hmake). split_and!.
  - apply length_join_prefix in Hpre. lia.
  - destruct Hpre as [r ->]. by apply Forall_app in Hnames as [? _].
  - done.
  - intros parent name Hq. apply Hmake. by etrans.
Qed.

(** Nothing refuses the last step of a way on which nothing is refused,
    once the directories above it are there. *)
Lemma refusal_last off t0 t segs name mode :
  unrefused off t0 (segs ++ [name]) mode →
  t0 !! (segs ++ [name]) = None →
  node_at t segs = match node_at t0 segs with
                   | Some n => Some n
                   | None => Some (Dir mode)
                   end →
  refusal off t (join (segs ++ [name])) segs name mode = None.
Proof.
  intros (Hpath & Hnames & Hmode & Hmake) Hnone Hparent. unfold refusal.
  apply Forall_app in Hnames as [_ [Hname _]%Forall_cons].
  destruct (Hmake segs name) as [Hoff Hgrants]; [done.. |].
  rewrite bool_decide_eq_false_2 by done.
  rewrite bool_decide_eq_false_2 by lia.
  rewrite bool_decide_eq_false_2 by lia.
  rewrite bool_decide_eq_false_2 by done.
  rewrite Hparent. destruct (node_at t0 segs) as [[m| |]|]; try done; by rewrite Hgrants.
Qed.

Lemma stat_join w segs :
  Forall plain segs →
  fs_stat (pathutil.resolve (join segs) w) w =
  match walk SYMLOOP_MAX (tree w) true [] segs with
  | Found _ n => (w, inr (stats_of n))
  | Missing _ _ => (w, inl (system_error "ENOENT" "stat" (join segs)))
  | Failed c => (w, inl (system_error c "stat" (join segs)))
  end.
Proof.
  intros Hsegs. rewrite resolve_join_posix by done.
  change (fs_stat ?p ?w) with (Posix.stat p w). unfold Posix.stat.
  by rewrite lookup_path_join.
Qed.

(** A walk along directories ends at the last of them. *)
Lemma walk_dirs hops t follow segs m :
  Forall plain segs →
  (∀ q, q `prefix_of` segs → q ≠ segs → is_dir (node_at t q) = true) →
  node_at t segs = Some (Dir m) →
  walk hops t follow [] segs = Found segs (Dir m).
Proof.
  intros Hsegs Hdirs Hlast.
  rewrite <- (app_nil_r segs) at 1. rewrite walk_descend, walk_nil; [| done |].
  - simpl. by rewrite Hlast.
  - intros q Hq Hpre. simpl. destruct (decide (q = segs)) as [-> | Hne].
    + destruct segs; [done |]. simpl in *. by rewrite Hlast.
    + rewrite <- (Hdirs q) by done. by destruct q.
Qed.

(** A walk to a free name in the last of a chain of directories. *)
Lemma walk_free hops t follow segs name :
  Forall plain segs → plain name →
  (∀ q, q `prefix_of` segs → is_dir (node_at t q) = true) →
  t !! (segs ++ [name]) = None →
  walk hops t follow [] (segs ++ [name]) = Missing segs name.
Proof.
  intros Hsegs Hname Hdirs Hlast.
  rewrite walk_descend, walk_cons; [| done | done |].
  - simpl. by rewrite Hlast.
  - intros q Hq Hpre. simpl. rewrite <- (Hdirs q) by done. by destruct q.
Qed.

Lemma prefix_snoc_inv {A} (q l : list A) (x : A) :
  q `prefix_of` l ++ [x] → q = l ++ [x] ∨ q `prefix_of` l.
Proof.
  intros [k Hk]. destruct k as [|y k _] using rev_ind.
  - rewrite app_nil_r in Hk. by left.
  - rewrite app_assoc in Hk. apply app_inj_tail in Hk as [-> _].
    right. by apply prefix_app_r.
Qed.

Lemma proper_prefix_snoc {A} (q l : list A) (x : A) :
  q `prefix_of` l ++ [x] → q ≠ l ++ [x] → q `prefix_of` l.
Proof. by intros [-> | Hpre]%prefix_snoc_inv. Qed.

Lemma snoc_not_prefix {A} (l : list A) (x : A) : ¬ (l ++ [x]) `prefix_of` l.
Proof.
  intros Hpre%prefix_length. rewrite length_app in Hpre. simpl in Hpre. lia.
Qed.

(** The last step: every ancestor is there already. *)
Lemma createDirectory_ready fuel segs mode w :
  Forall plain segs →
  (∀ q, q `prefix_of` segs → q ≠ segs → is_dir (node_at (tree w) q) = true) →
  node_at (tree w) segs = None ∨ is_dir (node_at (tree w) segs) = true →
  (node_at (tree w) segs = None → ∀ parent name, segs = parent ++ [name] →
     refusal (denied w) (tree w) (join segs) parent name (default (ModeNum 511) mode)
     = None) →
  createDirectory (S fuel) (join segs) mode w =
  (mkFsys (cwd w)
     (if is_dir (node_at (tree w) segs) then tree w
      else <[segs := Dir (default (ModeNum 511) mode)]> (tree w))
     (denied w),
   Resolved tt).
Proof.
  intros Hsegs Hdirs Hlast Hallowed.
  destruct (node_at (tree w) segs) as [[m| |target]|] eqn:Hnode;
    simpl in *; try (by destruct Hlast).
  - erewrite createDirectory_other.
    + rewrite stat_join, (walk_dirs _ _ _ _ m) by done. simpl. by destruct w.
    + by rewrite mkdir_join, (walk_dirs _ _ _ _ m) by done.
    + done.
  - destruct segs as [|x segs _] using rev_ind; [done |].
    rewrite node_at_snoc in Hnode.
    apply Forall_app in Hsegs as [Hsegs [Hx _]%Forall_cons].
    erewrite createDirectory_created; [done |].
    rewrite mkdir_join by (apply Forall_app; auto).
    rewrite walk_free; [by rewrite (Hallowed eq_refl segs x) | done | done | | done].
    intros q Hpre. apply Hdirs; [by apply prefix_app_r |].
    intros ->. by apply snoc_not_prefix in Hpre.
Qed.

(** On a clear way, either every directory down to [segs] is there, or
    the walk to a name below [segs] stops at the first gap. *)
Lemma walk_gap hops t follow cur segs name :
  Forall plain segs → plain name →
  (∀ q, q ≠ [] → q `prefix_of` segs →
        t !! (cur ++ q) = None ∨ is_dir (t !! (cur ++ q)) = true) →
  (∀ q, q ≠ [] → q `prefix_of` segs → is_dir (t !! (cur ++ q)) = true) ∨
  walk hops t follow cur (segs ++ [name]) = Failed "ENOENT".
Proof.
  intros Hsegs Hname. revert cur.
  induction Hsegs as [|x segs Hx Hsegs IH]; intros cur Hclear.
  - left. by intros q Hq ->%prefix_nil_inv.
  - cbn [app]. rewrite walk_cons by done.
    destruct (Hclear [x] ltac:(done) ltac:(by apply prefix_cons, prefix_nil))
      as [Hnone | Hdir].
    + right. rewrite Hnone. by destruct segs.
    + destruct (t !! (cur ++ [x])) as [[m| |]|] eqn:Hnode; try done.
      destruct (IH (cur ++ [x])) as [Hall | Hfail].
      * intros q Hq Hpre. rewrite <- app_assoc. apply Hclear; [done |].
        by apply prefix_cons.
      * left. intros q Hq Hpre. destruct q as [|y q]; [done |].
        apply prefix_cons_inv_1 in Hpre as Hy. subst y.
        apply prefix_cons_inv_2 in Hpre.
        destruct q as [|z q]; [by rewrite Hnode |].
        specialize (Hall (z :: q) ltac:(done) Hpre).
        by rewrite <- app_assoc in Hall.
      * by right.
Qed.

(** [createDirectory] on a resolved path with a clear way on which
    nothing is refused. *)
Lemma createDirectory_clear segs :
  Forall plain segs →
  ∀ fuel mode w,
    length segs < fuel → unobstructed (tree w) segs →
    unrefused (denied w) (tree w) segs (default (ModeNum 511) mode) →
    ∃ t', createDirectory fuel (join segs) mode w
          = (mkFsys (cwd w) t' (denied w), Resolved tt) ∧
          (∀ q, q `prefix_of` segs → is_dir (node_at t' q) = true) ∧
          (∀ k, ¬ k `prefix_of` segs → t' !! k = tree w !! k) ∧
          (∀ q, q `prefix_of` segs →
                node_at t' q = match node_at (tree w) q with
                               | Some n => Some n
                               | None => Some (Dir (default (ModeNum 511) mode))
                               end).
Proof.
  induction segs as [|x segs IH] using rev_ind;
    intros Hsegs fuel mode w Hfuel Hclear Hfree.
  - destruct fuel as [|fuel]; [simpl in Hfuel; lia |].
    rewrite createDirectory_ready;
      [| done | by intros q ->%prefix_nil_inv | by right | by intros [=]].
    simpl. exists (tree w).
    split_and!; [done | by intros q ->%prefix_nil_inv | done |].
    by intros q ->%prefix_nil_inv.
  - apply Forall_app in Hsegs as Hboth. destruct Hboth as [Hinit [Hx _]%Forall_cons].
    rewrite length_app in Hfuel. simpl in Hfuel.
    destruct fuel as [|fuel]; [lia |].
    assert (Hready : ∀ w1 : fsys,
      cwd w1 = cwd w → denied w1 = denied w →
      (∀ q, q `prefix_of` segs → is_dir (node_at (tree w1) q) = true) →
      (∀ k, ¬ k `prefix_of` segs → tree w1 !! k = tree w !! k) →
      (∀ q, q `prefix_of` segs →
            node_at (tree w1) q = match node_at (tree w) q with
                                  | Some n => Some n
                                  | None => Some (Dir (default (ModeNum 511) mode))
                                  end) →
      ∀ fuel', ∃ t', createDirectory (S fuel') (join (segs ++ [x])) mode w1
                     = (mkFsys (cwd w) t' (denied w), Resolved tt) ∧
          (∀ q, q `prefix_of` segs ++ [x] → is_dir (node_at t' q) = true) ∧
          (∀ k, ¬ k `prefix_of` segs ++ [x] → t' !! k = tree w !! k) ∧
          (∀ q, q `prefix_of` segs ++ [x] →
                node_at t' q = match node_at (tree w) q with
                               | Some n => Some n
                               | None => Some (Dir (default (ModeNum 511) mode))
                               end)).
    { intros w1 Hcwd Hoff Hdirs Hframe Hway fuel'.
      assert (Hlast : tree w1 !! (segs ++ [x]) = tree w !! (segs ++ [x])).
      { apply Hframe, snoc_not_prefix. }
      assert (Hhere : tree w !! (segs ++ [x]) = None ∨
                      is_dir (tree w !! (segs ++ [x])) = true).
      { rewrite <- node_at_snoc. by apply Hclear. }
      rewrite createDirectory_ready; [| done | | |].
      - rewrite Hcwd, Hoff. eexists. split; [done |]. split_and!.
        + intros q [-> | Hpre]%prefix_snoc_inv.
          * rewrite !node_at_snoc.
            destruct (is_dir (tree w1 !! (segs ++ [x]))) eqn:Hd; [done |].
            by rewrite lookup_insert_eq.
          * destruct (is_dir (node_at (tree w1) (segs ++ [x]))); [by apply Hdirs |].
            destruct q as [|y q]; [done |]. simpl.
            rewrite lookup_insert_ne; [by apply (Hdirs (y :: q)) |].
            intros Heq. rewrite <- Heq in Hpre. by apply snoc_not_prefix in Hpre.
        + intros k Hk.
          destruct (is_dir (node_at (tree w1) (segs ++ [x]))).
          * apply Hframe. intros Hpre. apply Hk. by apply prefix_app_r.
          * rewrite lookup_insert_ne by (by intros <-).
            apply Hframe. intros Hpre. apply Hk. by apply prefix_app_r.
        + intros q [-> | Hpre]%prefix_snoc_inv.
          * rewrite !node_at_snoc, Hlast.
            destruct Hhere as [Hnone | Hdir].
            -- rewrite Hnone. simpl. by rewrite lookup_insert_eq.
            -- rewrite Hdir. by destruct (tree w !! (segs ++ [x])).
          * destruct (is_dir (node_at (tree w1) (segs ++ [x]))); [by apply Hway |].
            destruct q as [|y q]; [done |]. rewrite <- (Hway (y :: q)) by done. simpl.
            rewrite lookup_insert_ne; [done |].
            intros Heq. rewrite <- Heq in Hpre. by apply snoc_not_prefix in Hpre.
      - intros q Hpre Hne. apply Hdirs. by eapply proper_prefix_snoc.
      - by rewrite node_at_snoc, Hlast.
      - rewrite node_at_snoc, Hlast. intros Hnone parent name [<- <-]%app_inj_tail.
        rewrite Hoff. apply (refusal_last _ (tree w)); [done | done | by apply Hway]. }
    destruct (walk_gap SYMLOOP_MAX (tree w) false [] segs x Hinit Hx) as [Hall | Hgap].
    + intros q Hq Hpre. simpl.
      destruct (Hclear q) as [Hn | Hd]; [by apply prefix_app_r | |];
        destruct q; try done; auto.
    + apply Hready; [done | done | | done |].
      * intros q Hpre. destruct q as [|y q]; [done |]. by apply (Hall (y :: q)).
      * intros q Hpre. destruct q as [|y q]; [done |].
        specialize (Hall (y :: q) ltac:(done) Hpre). simpl in *.
        by destruct (tree w !! (y :: q)).
    + erewrite createDirectory_ENOENT;
        [| by rewrite mkdir_join, Hgap by done | done].
      rewrite resolve_join_posix, dirname_join by done.
      destruct (IH Hinit fuel mode w) as (t1 & -> & Hdirs & Hframe & Hway); [lia | | |].
      { intros q Hpre. apply Hclear. by apply prefix_app_r. }
      { eapply unrefused_prefix; [| done]. by apply prefix_app_r. }
      destruct fuel as [|fuel]; [lia |].
      by apply (Hready (mkFsys (cwd w) t1 (denied w))).
Qed.
End PosixMkdirp.

(** * Walks through links, and what [fs.mkdir] leaves behind *)

Section WalkLinks.
Import Path Spec Posix.
Implicit Types (t : gmap (list string) node) (cur rest : list string).

(** A walk ends at a free name only where the tree has no entry. *)
Lemma walk_missing_free hops t follow cur rest parent name :
  walk hops t follow cur rest = Missing parent name →
  t !! (parent ++ [name]) = None.
Proof.
  revert cur rest. induction hops as [hops IHhops] using lt_wf_ind.
  intros cur rest. revert cur.
  induction rest as [|x rest IHrest]; intros cur.
  - rewrite walk_nil. by destruct (node_at t cur).
  - rewrite walk_step. repeat case_decide; [by apply IHrest.. |].
    destruct (t !! (cur ++ [x])) as [[m| |target]|] eqn:Hnode.
    + apply IHrest.
    + by destruct rest.
    + destruct (bool_decide (rest = []) && negb follow); [done |].
      destruct hops as [|hops]; [done |]. apply IHhops. lia.
    + destruct rest; [| done]. by intros [= <- <-].
Qed.

(** The directory that [fs.mkdir] has made is where the same walk now
    ends, whether or not the last link is followed. *)
Lemma walk_insert hops t follow cur rest parent name mode :
  walk hops t false cur rest = Missing parent name →
  walk hops (<[parent ++ [name] := Dir mode]> t) follow cur rest
  = Found (parent ++ [name]) (Dir mode).
Proof.
  intros Hwalk. pose proof (walk_missing_free _ _ _ _ _ _ _ Hwalk) as Hfree.
  revert cur rest Hwalk. induction hops as [hops IHhops] using lt_wf_ind.
  intros cur rest. revert cur.
  induction rest as [|x rest IHrest]; intros cur.
  - rewrite walk_nil. by destruct (node_at t cur).
  - rewrite !walk_step. repeat case_decide; [by apply IHrest.. |].
    destruct (decide (cur ++ [x] = parent ++ [name])) as [Heq | Hne].
    + rewrite Heq, Hfree, lookup_insert_eq. destruct rest; [| done]. intros _.
      by rewrite walk_nil, node_at_snoc, lookup_insert_eq.
    + rewrite lookup_insert_ne by done.
      destruct (t !! (cur ++ [x])) as [[m| |target]|] eqn:Hnode.
      * apply IHrest.
      * by destruct rest.
      * destruct (bool_decide (rest = [])); [done |]. simpl.
        destruct hops as [|hops]; [done |]. apply IHhops. lia.
      * destruct rest; [| done]. intros [= -> ->]. done.
Qed.

(** Where [fs.stat] finds an entry, so does [fs.lstat]. *)
Lemma walk_follow_found hops t cur rest q n :
  walk hops t true cur rest = Found q n →
  ∃ q' n', walk hops t false cur rest = Found q' n'.
Proof.
  revert cur rest. induction hops as [hops IHhops] using lt_wf_ind.
  intros cur rest. revert cur.
  induction rest as [|x rest IHrest]; intros cur.
  - rewrite !walk_nil. destruct (node_at t cur); by eauto.
  - rewrite !walk_step. repeat case_decide; [by apply IHrest.. |].
    destruct (t !! (cur ++ [x])) as [[m| |target]|] eqn:Hnode.
    + apply IHrest.
    + destruct rest; by eauto.
    + rewrite andb_false_r. simpl.
      destruct (bool_decide (rest = [])); simpl; [by eauto |].
      destruct hops as [|hops]; [done |]. apply IHhops. lia.
    + by destruct rest.
Qed.
End WalkLinks.

(** * What a run of [createDirectory] leaves behind *)

Section PosixOutcome.
Import Path Spec Posix AsyncFile.
Local Existing Instance Posix.layer.
Implicit Types (t : gmap (list string) node) (segs : list string) (w : fsys).

Lemma stats_of_directory n :
  isDirectory (stats_of n) = true → ∃ m, n = Dir m.
Proof. destruct n; try done. by eauto. Qed.

(** After a run that resolves, [fs.stat] finds a directory at the path. *)
Lemma createDirectory_success fuel p mode w w' :
  createDirectory fuel p mode w = (w', Resolved tt) →
  cwd w' = cwd w ∧
  ∃ q m, lookup_path w' true (pathutil.resolve p w) = Found q (Dir m).
Proof.
  revert p w w'. induction fuel as [|fuel IH]; intros p w w'; [done |].
  rewrite createDirectory_resolve.
  pose proof (segments_plain (process_cwd w) p) as Hsegs.
  unfold pathutil.resolve at 1 2. rewrite resolve_segments.
  set (segs := segments (process_cwd (Layer := layer) w) p) in *.
  assert (Hstat : ∀ (w1 : fsys) err,
    fs_mkdir (Layer := layer) (pathutil.resolve (join segs) w)
      (default (ModeNum 511) mode) w = (w, Some err) →
    code err ≠ Some "ENOENT" →
    createDirectory (S fuel) (join segs) mode w = (w1, Resolved tt) →
    cwd w1 = cwd w ∧ ∃ q m, lookup_path w1 true (join segs) = Found q (Dir m)).
  { intros w1 err Hmkdir Hcode. rewrite (createDirectory_other _ _ _ _ _ _ Hmkdir Hcode).
    rewrite stat_join by done. rewrite lookup_path_join by done.
    destruct (walk SYMLOOP_MAX (tree w) true [] segs) as [q n| |] eqn:Hwalk; try done.
    destruct (isDirectory (stats_of n)) eqn:Hdir; [| done].
    apply stats_of_directory in Hdir as [m ->]. intros [= <-].
    rewrite Hwalk. by eauto. }
  pose proof (mkdir_join w segs (default (ModeNum 511) mode) Hsegs) as Hmkdir.
  destruct (walk SYMLOOP_MAX (tree w) false [] segs) as [q n|parent name|c] eqn:Hwalk.
  - by apply (Hstat _ _ Hmkdir).
  - destruct (refusal (denied w) (tree w) (join segs) parent name
                (default (ModeNum 511) mode)) as [c|] eqn:Hrefusal.
    + apply (Hstat _ _ Hmkdir). simpl. intros [= ->].
      by apply refusal_code in Hrefusal.
    + rewrite (createDirectory_created _ _ _ _ _ Hmkdir). intros [= <-].
      split; [done |]. rewrite lookup_path_join by done. simpl.
      rewrite (walk_insert _ _ _ _ _ _ _ _ Hwalk). by eauto.
  - destruct (decide (c = "ENOENT")) as [-> | Hc].
    + rewrite (createDirectory_ENOENT _ _ _ _ _ _ Hmkdir) by done.
      destruct (createDirectory (H := layer) fuel _ mode w)
        as [w2 [| [] |e]] eqn:Hparent; try done.
      apply IH in Hparent as [Hcwd2 _]. intros Hretry.
      apply IH in Hretry as [Hcwd' Hfound]. split; [congruence |].
      by rewrite !resolve_join_posix in Hfound.
    + apply (Hstat _ _ Hmkdir). simpl. congruence.
Qed.

(** A second run changes nothing. *)
Lemma createDirectory_again fuel fuel' p mode w w' :
  createDirectory fuel p mode w = (w', Resolved tt) →
  createDirectory (S fuel') p mode w' = (w', Resolved tt).
Proof.
  intros (Hcwd & q & m & Hfound)%createDirectory_success.
  assert (Hres : pathutil.resolve p w' = pathutil.resolve p w).
  { unfold pathutil.resolve. simpl. by rewrite Hcwd. }
  assert (Hlstat : ∃ q' n', lookup_path w' false (pathutil.resolve p w) = Found q' n').
  { revert Hfound. unfold lookup_path. case_decide; [done |].
    apply walk_follow_found. }
  destruct Hlstat as (q' & n' & Hlstat).
  erewrite createDirectory_other.
  - rewrite Hres. change (fs_stat ?p ?w) with (Posix.stat p w).
    unfold Posix.stat. by rewrite Hfound.
  - rewrite Hres. change (fs_mkdir ?p ?m ?w) with (Posix.mkdir p m w).
    unfold Posix.mkdir. by rewrite Hlstat.
  - done.
Qed.


End PosixOutcome.

(** * The two wrappers *)

Section Wrappers.
Context `{Layer}.

(** [promisify] settles its promise whenever the primitive calls back. *)
Lemma promisify_settles target args context resolver w :
  AsyncFile.promisify target args context resolver w =
  ((fs_apply target args w).1,
   match (fs_apply target args w).2 with
   | (Some err, _) => Rejected err
   | (None, results) =>
       Resolved match resolver with
                | Some r => apply_resolver r (arguments_of target args context resolver)
                | None => index results 0
                end
   end).
Proof.
  unfold AsyncFile.promisify, Promise, fs.apply.
  destruct (fs_apply target args w) as [w1 [[err|] results]]; [done |].
  by destruct resolver.
Qed.

(** [thunk] does so only where it has no resolver. *)
Lemma thunk_settles target args context w :
  Legacy.thunk target args context None w =
  ((fs_apply target args w).1,
   match (fs_apply target args w).2 with
   | (Some err, _) => Rejected err
   | (None, results) => Resolved (index results 0)
   end).
Proof.
  unfold Legacy.thunk, Promise, fs.apply.
  by destruct (fs_apply target args w) as [w1 [[err|] results]].
Qed.

Lemma thunk_drops_the_record target args context r w results :
  (fs_apply target args w).2 = (None, results) →
  Legacy.thunk target args context (Some r) w = ((fs_apply target args w).1, Pending).
Proof.
  unfold Legacy.thunk, Promise, fs.apply.
  destruct (fs_apply target args w) as [w1 [[err|] results']]; [done |].
  by intros _.
Qed.
End Wrappers.

(** * The claims about the specification *)

Section Lineage.
Import Spec Posix.

Lemma elem_of_lineage (q segs : list string) :
  q ∈ lineage segs ↔ q `prefix_of` segs.
Proof.
  unfold lineage. rewrite list_elem_of_fmap. split.
  - intros (n & -> & _). apply prefix_take.
  - intros [k ->]. exists (length q). split.
    + by rewrite take_app_length.
    + apply elem_of_seq. rewrite length_app. lia.
Qed.

Lemma forallb_lineage (f : list string → bool) (segs : list string) :
  forallb f (lineage segs) = true ↔ ∀ q, q `prefix_of` segs → f q = true.
Proof.
  rewrite forallb_forall. split.
  - intros Hall q Hq. by apply Hall, list_elem_of_In, elem_of_lineage.
  - intros Hall q Hq. by apply Hall, elem_of_lineage, list_elem_of_In.
Qed.

Lemma clear_way_unobstructed t segs : clear_way t segs = true → unobstructed t segs.
Proof.
  intros Hclear q Hq. apply (proj1 (forallb_lineage _ _) Hclear) in Hq.
  destruct (node_at t q); auto.
Qed.

Lemma permitted_unrefused (w : fsys) segs mode :
  permitted w segs mode = true → unrefused (denied w) (tree w) segs mode.
Proof.
  unfold permitted. rewrite !andb_true_iff, !bool_decide_eq_true.
  intros [[[Hpath Hnames] Hmode] Hway]. split_and!; [done | | done |].
  - apply Forall_forall. intros name Hname%list_elem_of_In.
    rewrite forallb_forall in Hnames. by apply Hnames, bool_decide_eq_true in Hname.
  - intros parent name Hq Hnone.
    apply (proj1 (forallb_lineage _ _) Hway) in Hq. rewrite node_at_snoc, Hnone in Hq.
    rewrite removelast_last in Hq.
    by apply andb_true_iff in Hq as [Hoff%bool_decide_eq_true Hgrants].
Qed.
End Lineage.

Section Claims.
Import Path Spec Posix.

(** C1, amended.  On the reference tree, take any path [p] whose way is
    clear (no entry other than a directory stands at the root, at an
    ancestor of the resolved path, or at the path itself) and on which
    the platform refuses nothing ([permitted]): the resolved path and
    its names are within the length limits, the mode is one that
    [fs.mkdir] takes, the owner may search the directories that are on
    the way already, and wherever a directory is missing, the directory
    to make it in is not off limits and lets the owner write and
    search, by its own mode or, when this run makes it, by the given
    one.  Then
    [createDirectory] resolves (with fuel for one call per component and
    one more), and afterwards the path and every ancestor of it are
    directories.  Moreover, over any layer, when [fs.mkdir] on the
    resolved path fails with [ENOENT], [createDirectory] is what it is
    on the parent directory, followed, if that resolves, by what it is
    on the path again. *)
Theorem createDirectory_makes_the_lineage :
  (∀ (w : fsys) (p : string) (mode : option Mode) (fuel : nat),
      let segs := segments (process_cwd (Layer := layer) w) p in
      length segs < fuel →
      clear_way (tree w) segs = true →
      permitted w segs (default (ModeNum 511) mode) = true →
      ∃ w', AsyncFile.createDirectory (H := layer) fuel p mode w = (w', Resolved tt) ∧
            all_directories (tree w') segs = true) ∧
  (∀ (L : Layer) (fuel : nat) (p : string) (mode : option Mode) (w w1 : World)
      (err : Error),
      fs_mkdir (pathutil.resolve p w) (default (ModeNum 511) mode) w = (w1, Some err) →
      code err = Some "ENOENT" →
      AsyncFile.createDirectory (S fuel) p mode w =
      match AsyncFile.createDirectory fuel (pathutil.dirname (pathutil.resolve p w)) mode w1 with
      | (w2, Resolved _) => AsyncFile.createDirectory fuel (pathutil.resolve p w) mode w2
      | (w2, Rejected e) => (w2, Rejected e)
      | (w2, Pending) => (w2, Pending)
      end).
Proof.
  split.
  - intros w p mode fuel segs Hfuel Hclear%clear_way_unobstructed
      Hfree%permitted_unrefused.
    rewrite createDirectory_resolve.
    unfold pathutil.resolve. rewrite resolve_segments. fold segs.
    destruct (createDirectory_clear segs (segments_plain _ _) fuel mode w Hfuel Hclear Hfree)
      as (t' & Hrun & Hdirs & _).
    exists (mkFsys (cwd w) t' (denied w)). split; [done |].
    by apply forallb_lineage.
  - intros L fuel p mode w w1 err. apply createDirectory_ENOENT.
Qed.

Lemma createDirectory_makes_the_lineage_witness :
  (∃ w', AsyncFile.createDirectory (H := layer) 4 "a/b" None Sample.home = (w', Resolved tt) ∧
         all_directories (tree w') ["home"; "a"; "b"] = true) ∧
  AsyncFile.createDirectory (H := layer) 4 "a/b" None Sample.home =
  match AsyncFile.createDirectory (H := layer) 3 "/home/a" None Sample.home with
  | (w2, Resolved _) => AsyncFile.createDirectory (H := layer) 3 "/home/a/b" None w2
  | (w2, Rejected e) => (w2, Rejected e)
  | (w2, Pending) => (w2, Pending)
  end.
Proof.
  split.
  - apply (proj1 createDirectory_makes_the_lineage Sample.home "a/b" None 4).
    + vm_compute. lia.
    + vm_compute. reflexivity.
    + vm_compute. reflexivity.
  - apply (proj2 createDirectory_makes_the_lineage layer 3 "a/b" None Sample.home
             Sample.home (system_error "ENOENT" "mkdir" "/home/a/b")).
    + vm_compute. reflexivity.
    + reflexivity.
Defined.

(** C1 as worded fails: a clear way is not enough.  With the mode
    [0o500], [createDirectory('a/b')] in [/home] makes [/home/a], is
    refused [/home/a/b] in it ([EACCES]: the owner may not write
    there), and is rejected with the [ENOENT] of [fs.stat]. *)
Lemma createDirectory_refused_in_what_it_made : ¬ makes_every_clear_way.
Proof.
  intros Hclaim.
  destruct (Hclaim Sample.home "a/b" (Some (ModeNum 320 (* 0o500 *))) 4)
    as (w' & Hrun & _).
  - vm_compute. lia.
  - vm_compute. reflexivity.
  - vm_compute in Hrun. discriminate Hrun.
Qed.

(** C2, amended.  Over any layer, when [fs.mkdir] on the resolved path
    fails with an error whose code is not [ENOENT] (be it [EEXIST],
    permission denied or an I/O error), [createDirectory] asks [fs.stat]
    about the path: the promise is rejected with the error of
    [fs.stat] when that fails, resolved when the entry is a directory,
    and rejected with the made-up "is already a file" error otherwise.
    The error of [fs.mkdir] itself is dropped. *)
Theorem createDirectory_asks_stat_on_other_errors
    (L : Layer) (fuel : nat) (p : string) (mode : option Mode) (w w1 : World)
    (err : Error) :
  fs_mkdir (pathutil.resolve p w) (default (ModeNum 511) mode) w = (w1, Some err) →
  code err ≠ Some "ENOENT" →
  AsyncFile.createDirectory (S fuel) p mode w =
  ((fs_stat (pathutil.resolve p w) w1).1,
   match (fs_stat (pathutil.resolve p w) w1).2 with
   | inl err2 => Rejected err2
   | inr st =>
       if isDirectory st then Resolved tt
       else Rejected (conflict_error (pathutil.resolve p w))
   end).
Proof.
  intros Hmkdir Hcode. rewrite (createDirectory_other _ _ _ _ _ _ Hmkdir Hcode).
  by destruct (fs_stat _ w1).
Qed.

Lemma createDirectory_asks_stat_on_other_errors_witness :
  AsyncFile.createDirectory (H := Scripted.layer Scripted.denied) 1 "/srv/data" None [] =
  ([(Scripted.Fs_call Fmkdir, [VStr "/srv/data"; VNum 511]);
    (Scripted.Fs_call Fstat, [VStr "/srv/data"])],
   Rejected (system_error "ENOENT" "stat" "/srv/data")).
Proof.
  apply (createDirectory_asks_stat_on_other_errors (Scripted.layer Scripted.denied)
           0 "/srv/data" None []
           [(Scripted.Fs_call Fmkdir, [VStr "/srv/data"; VNum 511])]
           (system_error "EACCES" "mkdir" "/srv/data")).
  - vm_compute. reflexivity.
  - vm_compute. discriminate.
Defined.

(** C2 as worded fails: where [fs.mkdir] is denied ([EACCES]) and the
    path has no entry, the promise is rejected with the [ENOENT] of
    [fs.stat], after a second call to the layer. *)
Lemma createDirectory_drops_the_mkdir_error :
  ¬ surfaces_other_errors (Scripted.layer Scripted.denied).
Proof.
  intros Hclaim.
  specialize (Hclaim 0 "/srv/data" None [] _ (system_error "EACCES" "mkdir" "/srv/data")
                eq_refl).
  vm_compute in Hclaim.
  by specialize (Hclaim ltac:(discriminate) ltac:(discriminate)).
Qed.




Lemma exists_by_lstat (L : Layer) (p : string) (w : World) :
  AsyncFile.exists_ p w =
  ((fs_lstat p w).1,
   match (fs_lstat p w).2 with
   | inr _ => Resolved true
   | inl err => if code_is err "ENOENT" then Resolved false else Rejected err
   end).
Proof.
  unfold AsyncFile.exists_, Promise, fs.lstat.
  destruct (fs_lstat p w) as [w1 [err|st]]; [| done]. simpl.
  by destruct (code_is err "ENOENT").
Qed.

Lemma exists_by_stat (L : Layer) (p : string) (w : World) :
  Legacy.exists_ p w =
  ((fs_stat p w).1,
   match (fs_stat p w).2 with
   | inr _ => Resolved true
   | inl err => if code_is err "ENOENT" then Resolved false else Rejected err
   end).
Proof.
  unfold Legacy.exists_, Legacy.try_await, Legacy.stat, Legacy.thunk, Promise,
    fs.apply, fs_apply.
  destruct (fs_stat p w) as [w1 [err|st]]; [| done]. simpl.
  by destruct (code_is err "ENOENT").
Qed.

(** C4.  Over any layer: [exists] gives [true] when the metadata query
    succeeds, [false] when it fails with [ENOENT], and is rejected with
    the error of the query in every other case.  The query is
    [fs.lstat] in the current interface and [fs.stat] in the first. *)
Theorem exists_tells_missing_from_failed (L : Layer) (p : string) (w w1 : World) :
  (∀ st, fs_lstat p w = (w1, inr st) → AsyncFile.exists_ p w = (w1, Resolved true)) ∧
  (∀ err, fs_lstat p w = (w1, inl err) → code err = Some "ENOENT" →
          AsyncFile.exists_ p w = (w1, Resolved false)) ∧
  (∀ err, fs_lstat p w = (w1, inl err) → code err ≠ Some "ENOENT" →
          AsyncFile.exists_ p w = (w1, Rejected err)) ∧
  (∀ st, fs_stat p w = (w1, inr st) → Legacy.exists_ p w = (w1, Resolved true)) ∧
  (∀ err, fs_stat p w = (w1, inl err) → code err = Some "ENOENT" →
          Legacy.exists_ p w = (w1, Resolved false)) ∧
  (∀ err, fs_stat p w = (w1, inl err) → code err ≠ Some "ENOENT" →
          Legacy.exists_ p w = (w1, Rejected err)).
Proof.
  rewrite exists_by_lstat, exists_by_stat. unfold code_is.
  split_and!; intros ? -> ; simpl; try done; intros Hcode.
  - by rewrite bool_decide_eq_true_2.
  - by rewrite bool_decide_eq_false_2.
  - by rewrite bool_decide_eq_true_2.
  - by rewrite bool_decide_eq_false_2.
Qed.

Lemma exists_tells_missing_from_failed_witness :
  AsyncFile.exists_ (H := layer) "/a" Sample.blocked = (Sample.blocked, Resolved true) ∧
  AsyncFile.exists_ (H := layer) "/b" Sample.blocked = (Sample.blocked, Resolved false) ∧
  AsyncFile.exists_ (H := layer) "/a/b" Sample.blocked =
    (Sample.blocked, Rejected (system_error "ENOTDIR" "lstat" "/a/b")) ∧
  Legacy.exists_ (H := layer) "/a" Sample.blocked = (Sample.blocked, Resolved true) ∧
  Legacy.exists_ (H := layer) "/b" Sample.blocked = (Sample.blocked, Resolved false) ∧
  Legacy.exists_ (H := layer) "/a/b" Sample.blocked =
    (Sample.blocked, Rejected (system_error "ENOTDIR" "stat" "/a/b")).
Proof.
  pose proof (exists_tells_missing_from_failed layer "/a" Sample.blocked Sample.blocked)
    as (Hfound & _ & _ & Hfound' & _ & _).
  pose proof (exists_tells_missing_from_failed layer "/b" Sample.blocked Sample.blocked)
    as (_ & Hmissing & _ & _ & Hmissing' & _).
  pose proof (exists_tells_missing_from_failed layer "/a/b" Sample.blocked Sample.blocked)
    as (_ & _ & Hfailed & _ & _ & Hfailed').
  split_and!.
  - apply (Hfound (mkStats RegularFile)). vm_compute. reflexivity.
  - apply (Hmissing (system_error "ENOENT" "lstat" "/b")); vm_compute; reflexivity.
  - apply Hfailed; vm_compute; [reflexivity | discriminate].
  - apply (Hfound' (mkStats RegularFile)). vm_compute. reflexivity.
  - apply (Hmissing' (system_error "ENOENT" "stat" "/b")); vm_compute; reflexivity.
  - apply Hfailed'; vm_compute; [reflexivity | discriminate].
Defined.

(** C5, amended.  On the reference tree, for a symbolic link at [p]
    whose target has no entry: [exists] of the current interface, which
    asks [fs.lstat], gives [true]; [exists] of the first interface,
    which asks [fs.stat], gives [false]. *)
Theorem exists_on_a_dangling_link (w : fsys) (p : string) :
  dangling w p = true →
  AsyncFile.exists_ (H := layer) p w = (w, Resolved true) ∧
  Legacy.exists_ (H := layer) p w = (w, Resolved false).
Proof.
  unfold dangling. intros Hdangling.
  rewrite exists_by_lstat, exists_by_stat.
  change (fs_lstat (Layer := layer) p w) with (lstat p w).
  change (fs_stat (Layer := layer) p w) with (stat p w).
  unfold lstat, stat.
  destruct (lookup_path w false p) as [q [| |target]| |]; try done.
  destruct (lookup_path w true p) as [| |c]; try done.
  apply bool_decide_eq_true in Hdangling as ->. done.
Qed.

Lemma exists_on_a_dangling_link_witness :
  AsyncFile.exists_ (H := layer) "/latest" Sample.stale = (Sample.stale, Resolved true) ∧
  Legacy.exists_ (H := layer) "/latest" Sample.stale = (Sample.stale, Resolved false).
Proof.
  apply (exists_on_a_dangling_link Sample.stale "/latest"). vm_compute. reflexivity.
Defined.

(** C5 as worded fails for the first interface: its [exists] does not
    see the dangling link [/latest]. *)
Lemma legacy_exists_follows_links :
  ¬ sees_dangling_links (Legacy.exists_ (H := layer)).
Proof.
  intros Hclaim. specialize (Hclaim Sample.stale "/latest" eq_refl).
  vm_compute in Hclaim. discriminate Hclaim.
Qed.

(** C6.  On the reference tree, when [createDirectory] resolves, a
    second [createDirectory] on the same path, run from the state that
    the first one left, resolves as well and leaves that state as it
    is. *)
Theorem createDirectory_idempotent
    (w w' : fsys) (p : string) (mode : option Mode) (fuel fuel' : nat) :
  AsyncFile.createDirectory (H := layer) fuel p mode w = (w', Resolved tt) →
  0 < fuel' →
  AsyncFile.createDirectory (H := layer) fuel' p mode w' = (w', Resolved tt).
Proof.
  intros Hfirst Hfuel. destruct fuel' as [|fuel']; [lia |].
  by eapply createDirectory_again.
Qed.

Lemma createDirectory_idempotent_witness :
  AsyncFile.createDirectory (H := layer) 1 "a/b" None
    (AsyncFile.createDirectory (H := layer) 4 "a/b" None Sample.home).1 =
  ((AsyncFile.createDirectory (H := layer) 4 "a/b" None Sample.home).1, Resolved tt).
Proof.
  apply (createDirectory_idempotent Sample.home _ "a/b" None 4 1).
  - vm_compute. reflexivity.
  - lia.
Defined.

(** C7, amended.  Over any layer: [del] of the current interface (exported
    as [delete] and [rimraf]) hands the path to [rimraf] and ends as
    [rimraf] ends, leaving what it leaves; [del] of the first interface
    hands the path to [fs.unlink], through [thunk], and ends as
    [fs.unlink] ends. *)
Theorem del_delegates (L : Layer) (p : string) (w : World) :
  AsyncFile.del p w = ((rimraf_run p w).1, outcome tt (rimraf_run p w).2) ∧
  Legacy.del p w = ((fs_unlink p w).1, outcome VUndefined (fs_unlink p w).2).
Proof.
  split.
  - unfold AsyncFile.del, Promise, rimraf. by destruct (rimraf_run p w) as [w1 [err|]].
  - unfold Legacy.del, Legacy.unlink, Legacy.thunk, Promise, fs.apply, fs_apply.
    by destruct (fs_unlink p w) as [w1 [err|]].
Qed.

(** C7 as worded fails for the first interface: on the directory [/d]
    with a file in it, [del] is rejected with the [EISDIR] of
    [fs.unlink] and removes nothing, where [rimraf] removes both. *)
Lemma legacy_del_is_unlink :
  ¬ deletes_recursively layer VUndefined (Legacy.del (H := layer)).
Proof.
  intros Hclaim. specialize (Hclaim "/d" Sample.full).
  vm_compute in Hclaim. discriminate Hclaim.
Qed.


(** C9, at one call.  [fs.read] calls back with five bytes read.  The
    promise of [read] in the first interface stays pending: [thunk]
    calls the resolver and drops its record.  The promise of [read] in
    the current interface is resolved with the record of the resolver,
    which [promisify] calls with its own [arguments]. *)
Theorem read_of_five_bytes :
  Legacy.read (H := Scripted.layer Scripted.granted) 3 Sample.buffer 0 5 0 [] =
    ([(Scripted.Fs_call Fread, Sample.read_arguments)], Pending) ∧
  AsyncFile.read (H := Scripted.layer Scripted.granted) 3 Sample.buffer 0 5 0 [] =
    ([(Scripted.Fs_call Fread, Sample.read_arguments)],
     Resolved (VObject [("bytesRead", VArray Sample.read_arguments); ("buffer", VNull)])).
Proof. split; reflexivity. Qed.

(** C10.  Over any layer: the promise of [access] in the current
    interface is resolved with [true] when the check of [fs.access]
    succeeds and with [false] when it fails, whatever the error; it is
    never rejected and never left pending. *)
Theorem access_never_rejects (L : Layer) (path : string) (mode : optional Mode)
    (w : World) :
  AsyncFile.access path mode w =
  ((fs_access path mode w).1, Resolved (bool_decide ((fs_access path mode w).2 = None))).
Proof.
  unfold AsyncFile.access, Promise, fs.access.
  by destruct (fs_access path mode w) as [w1 [err|]].
Qed.
End Claims.

(** * More of the code: [createDirectory] on the reference tree *)

Section TreeGrowth.
Import Path Spec Posix Cover.
Implicit Types (w : fsys) (mode : Mode).

Lemma kept_or_made_trans mode k (a b c : option node) :
  kept_or_made mode k a b → kept_or_made mode k b c → kept_or_made mode k a c.
Proof.
  intros [-> | (Hk & -> & ->)] [-> | (Hk' & Hb & ->)].
  - by left.
  - by right.
  - by right.
  - done.
Qed.

Lemma lookup_path_missing_free w follow p parent name :
  lookup_path w follow p = Missing parent name →
  tree w !! (parent ++ [name]) = None.
Proof.
  unfold lookup_path. case_decide; [done |]. apply walk_missing_free.
Qed.

(** [fs.mkdir] makes at most one directory, at a free name. *)
Lemma mkdir_grows p mode w w1 err :
  mkdir p mode w = (w1, err) →
  cwd w1 = cwd w ∧ ∀ k, kept_or_made mode k (tree w !! k) (tree w1 !! k).
Proof.
  unfold mkdir.
  destruct (lookup_path w false p) as [q n|parent name|c] eqn:Hwalk;
    [| destruct (refusal (denied w) (tree w) p parent name mode) |];
    intros [= <- <-]; try (split; [done | by left]).
  split; [done |]. intros k. simpl.
  destruct (decide (k = parent ++ [name])) as [-> | Hne].
  - right. rewrite lookup_insert_eq, (lookup_path_missing_free _ _ _ _ _ Hwalk).
    split; [by destruct parent | done].
  - left. by rewrite lookup_insert_ne.
Qed.

Lemma stat_pure p w : (stat p w).1 = w.
Proof. unfold stat. by destruct (lookup_path w true p). Qed.

Lemma stat_error p w err :
  (stat p w).2 = inl err → syscall err = Some "stat".
Proof.
  unfold stat. destruct (lookup_path w true p); simpl; [done | |]; by intros [= <-].
Qed.

(** Any run of [createDirectory], however it ends, only makes
    directories at free names. *)
Lemma createDirectory_grows fuel p (mode : option Mode) w :
  cwd (AsyncFile.createDirectory (H := layer) fuel p mode w).1 = cwd w ∧
  ∀ k, kept_or_made (default (ModeNum 511) mode) k (tree w !! k)
         (tree (AsyncFile.createDirectory (H := layer) fuel p mode w).1 !! k).
Proof.
  revert p w. induction fuel as [|fuel IH]; intros p w; [by split; [| left] |].
  set (rp := pathutil.resolve (H := layer) p w).
  destruct (fs_mkdir (Layer := layer) rp
              (default (ModeNum 511) mode) w) as [w1 [err|]] eqn:Hmkdir.
  - apply mkdir_grows in Hmkdir as Hgrow. destruct Hgrow as [Hcwd1 Hgrow1].
    destruct (decide (code err = Some "ENOENT")) as [Hcode | Hcode].
    + rewrite (createDirectory_ENOENT _ _ _ _ _ _ Hmkdir Hcode).
      fold rp. pose proof (IH (pathutil.dirname rp) w1) as [Hcwd2 Hgrow2].
      destruct (AsyncFile.createDirectory (H := layer) fuel (pathutil.dirname rp) mode w1)
        as [w2 [| [] |e]] eqn:Hparent; simpl in *.
      * split; [congruence |]. intros k. by eapply kept_or_made_trans.
      * pose proof (IH rp w2) as [Hcwd3 Hgrow3].
        split; [congruence |]. intros k.
        eapply kept_or_made_trans; [| apply Hgrow3].
        by eapply kept_or_made_trans.
      * split; [congruence |]. intros k. by eapply kept_or_made_trans.
    + rewrite (createDirectory_other _ _ _ _ _ _ Hmkdir Hcode).
      change (fs_stat (Layer := layer) ?q ?v) with (stat q v).
      fold rp. pose proof (stat_pure rp w1) as Hpure.
      destruct (stat rp w1) as [w2 r]. simpl in *. subst w2.
      by split.
  - rewrite (createDirectory_created _ _ _ _ _ Hmkdir). simpl.
    by apply mkdir_grows in Hmkdir.
Qed.

(** The tree after a run on a clear way. *)
Lemma createDirectory_exact (w : fsys) (p : string) (mode : option Mode) (fuel : nat) :
  length (segments (process_cwd (Layer := layer) w) p) < fuel →
  unobstructed (tree w) (segments (process_cwd (Layer := layer) w) p) →
  unrefused (denied w) (tree w) (segments (process_cwd (Layer := layer) w) p)
    (default (ModeNum 511) mode) →
  ∃ w', AsyncFile.createDirectory (H := layer) fuel p mode w = (w', Resolved tt) ∧
        cwd w' = cwd w ∧ denied w' = denied w ∧
        ∀ k, tree w' !! k =
             match tree w !! k with
             | Some n => Some n
             | None =>
                 if bool_decide (k ≠ [] ∧ k `prefix_of` segments (process_cwd (Layer := layer) w) p)
                 then Some (Dir (default (ModeNum 511) mode))
                 else None
             end.
Proof.
  set (segs := segments (process_cwd (Layer := layer) w) p). intros Hfuel Hclear Hfree.
  destruct (createDirectory_grows fuel p mode w) as [Hcwd Hgrow].
  revert Hcwd Hgrow. rewrite createDirectory_resolve.
  unfold pathutil.resolve. rewrite resolve_segments. fold segs.
  destruct (createDirectory_clear segs (segments_plain _ _) fuel mode w Hfuel Hclear Hfree)
    as (t' & -> & Hdirs & Hframe & _).
  simpl. intros _ Hgrow. eexists. split_and!; [done | done | done |]. intros k. simpl.
  destruct (Hgrow k) as [Hkept | (Hk & Hnone & Hmade)].
  - rewrite Hkept. destruct (tree w !! k) eqn:Hbefore; [done |].
    case_bool_decide as Hway; [| done]. destruct Hway as [Hk Hpre].
    specialize (Hdirs k Hpre). destruct k; [done |]. simpl in Hdirs.
    by rewrite Hkept in Hdirs.
  - rewrite Hmade, Hnone. case_bool_decide as Hway; [done |].
    destruct (decide (k `prefix_of` segs)) as [Hpre | Hpre]; [by destruct Hway |].
    rewrite (Hframe k Hpre), Hnone in Hmade. done.
Qed.

(** What a run on one clear way leaves is clear on every other. *)
Lemma unobstructed_after (t t' : gmap (list string) node) (mode : Mode)
    (segs segs' : list string) :
  (∀ k, t' !! k = match t !! k with
                  | Some n => Some n
                  | None => if bool_decide (k ≠ [] ∧ k `prefix_of` segs)
                            then Some (Dir mode) else None
                  end) →
  unobstructed t segs' → unobstructed t' segs'.
Proof.
  intros Htree Hclear q Hq. destruct q as [|x q]; [by right |]. simpl.
  specialize (Hclear _ Hq). simpl in Hclear. rewrite Htree.
  destruct (t !! (x :: q)); [done |]. case_bool_decide; by auto.
Qed.

(** Nor does it refuse, on another way, what was not refused before. *)
Lemma unrefused_after (off : gset (list string)) (t t' : gmap (list string) node)
    (mode : Mode) (segs segs' : list string) :
  (∀ k, t' !! k = match t !! k with
                  | Some n => Some n
                  | None => if bool_decide (k ≠ [] ∧ k `prefix_of` segs)
                            then Some (Dir mode) else None
                  end) →
  unrefused off t segs' mode → unrefused off t' segs' mode.
Proof.
  intros Htree (Hpath & Hnames & Hmode & Hmake). split_and!; [done.. |].
  intros parent name Hq Hnone.
  assert (Hbefore : t !! (parent ++ [name]) = None).
  { rewrite Htree in Hnone. by destruct (t !! (parent ++ [name])). }
  destruct (Hmake parent name Hq Hbefore) as [Hoff Hgrants]. split; [done |].
  destruct parent as [|y parent]; [done |]. simpl in *. rewrite Htree.
  destruct (t !! (y :: parent)) as [[m| |]|]; try done. by case_bool_decide.
Qed.

(** What [mkdirp] hands to [done], if anything: nothing, an error that
    [fs.stat] has reported, or the error that it makes up. *)
Lemma mkdirp_origin (L : Layer) fuel p (mode : Mode) (w : World) :
  match (AsyncFile.mkdirp fuel p mode settle w).2 with
  | Rejected e =>
      (∃ q (w0 : World), (fs_stat q w0).2 = inl e) ∨ (∃ q, e = conflict_error q)
  | _ => True
  end.
Proof.
  revert p w. induction fuel as [|fuel IH]; intros p w; [done |].
  change (AsyncFile.mkdirp (S fuel) p mode settle w)
    with (AsyncFile.createDirectory (S fuel) p (Some mode) w).
  destruct (fs_mkdir (pathutil.resolve p w) mode w) as [w1 [err|]] eqn:Hmkdir.
  - destruct (decide (code err = Some "ENOENT")) as [Hcode | Hcode].
    + rewrite (createDirectory_ENOENT fuel p (Some mode) w w1 err Hmkdir Hcode).
      rewrite !createDirectory_mkdirp. simpl.
      pose proof (IH (pathutil.dirname (pathutil.resolve p w)) w1) as Hparent.
      destruct (AsyncFile.mkdirp fuel (pathutil.dirname (pathutil.resolve p w)) mode settle w1)
        as [w2 [| [] |e]]; [done | apply IH | done].
    + rewrite (createDirectory_other fuel p (Some mode) w w1 err Hmkdir Hcode).
      destruct (fs_stat (pathutil.resolve p w) w1) as [w2 [err2|st]] eqn:Hstat; simpl.
      * left. exists (pathutil.resolve p w), w1. by rewrite Hstat.
      * destruct (isDirectory st); [done |]. right. by eexists.
  - by rewrite (createDirectory_created fuel p (Some mode) w w1 Hmkdir).
Qed.

(** Following the last link makes a difference only where there is one. *)
Lemma walk_follow_agrees (hops : nat) (t : gmap (list string) node) (cur rest : list string) :
  (∀ q target, walk hops t false cur rest ≠ Found q (Symlink target)) →
  walk hops t true cur rest = walk hops t false cur rest.
Proof.
  revert cur rest. induction hops as [hops IHhops] using lt_wf_ind.
  intros cur rest. revert cur.
  induction rest as [|x rest IHrest]; intros cur.
  - by rewrite !walk_nil.
  - rewrite !walk_step. repeat case_decide; [by apply IHrest.. |].
    destruct (t !! (cur ++ [x])) as [[m| |target]|] eqn:Hnode; [apply IHrest | done | | done].
    rewrite andb_false_r. simpl.
    destruct (bool_decide (rest = [])) eqn:Hrest; simpl.
    + intros Hlink. by destruct (Hlink (cur ++ [x]) target).
    + destruct hops as [|hops]; [done |]. apply IHhops. lia.
Qed.
End TreeGrowth.

Section CoverTree.
Import Path Spec Posix Cover.

(** X1.  On the reference tree, a run of [createDirectory], however it
    ends (resolved, rejected, or cut short), leaves the working directory
    alone and, at every key of the tree, either leaves the entry as it
    was or puts a directory of the mode it was given (0o777 when none
    was) where there was no entry: it never removes or replaces one. *)
Theorem createDirectory_only_makes_directories
    (w : fsys) (p : string) (mode : option Mode) (fuel : nat) (k : list string) :
  cwd (AsyncFile.createDirectory (H := layer) fuel p mode w).1 = cwd w ∧
  (tree (AsyncFile.createDirectory (H := layer) fuel p mode w).1 !! k = tree w !! k ∨
   (tree w !! k = None ∧
    tree (AsyncFile.createDirectory (H := layer) fuel p mode w).1 !! k
    = Some (Dir (default (ModeNum 511) mode)))).
Proof.
  destruct (createDirectory_grows fuel p mode w) as [Hcwd Hgrow].
  split; [done |]. destruct (Hgrow k) as [Hkept | (_ & Hnone & Hmade)]; auto.
Qed.

(** X2.  On the reference tree, for a path whose way is clear and on
    which the platform refuses nothing ([permitted]: lengths within the
    limits, a mode that [fs.mkdir] takes, and directories that let the
    owner search and, where one is to be made in them, write),
    [createDirectory] resolves and the tree it leaves is the tree it
    found with a directory of the given mode at every name of the way
    that had no entry, and nothing else changed. *)
Theorem createDirectory_makes_exactly_the_missing
    (w : fsys) (p : string) (mode : option Mode) (fuel : nat) :
  let segs := segments (process_cwd (Layer := layer) w) p in
  length segs < fuel →
  clear_way (tree w) segs = true →
  permitted w segs (default (ModeNum 511) mode) = true →
  ∃ w', AsyncFile.createDirectory (H := layer) fuel p mode w = (w', Resolved tt) ∧
        cwd w' = cwd w ∧ denied w' = denied w ∧
        ∀ k, tree w' !! k =
             match tree w !! k with
             | Some n => Some n
             | None =>
                 if bool_decide (k ≠ [] ∧ k `prefix_of` segs)
                 then Some (Dir (default (ModeNum 511) mode))
                 else None
             end.
Proof.
  intros segs Hfuel Hclear%clear_way_unobstructed Hfree%permitted_unrefused.
  by apply createDirectory_exact.
Qed.

Lemma createDirectory_makes_exactly_the_missing_witness :
  ∃ w', AsyncFile.createDirectory (H := layer) 4 "a/b" None Sample.home = (w', Resolved tt) ∧
        cwd w' = ["home"] ∧ denied w' = ∅ ∧
        ∀ k, tree w' !! k =
             match tree Sample.home !! k with
             | Some n => Some n
             | None =>
                 if bool_decide (k ≠ [] ∧ k `prefix_of` ["home"; "a"; "b"])
                 then Some (Dir (ModeNum 511))
                 else None
             end.
Proof.
  apply (createDirectory_makes_exactly_the_missing Sample.home "a/b" None 4).
  - vm_compute. lia.
  - vm_compute. reflexivity.
  - vm_compute. reflexivity.
Defined.

(** X3.  On the reference tree, whenever [createDirectory] resolves, be
    it through symbolic links, [fs.stat] on the resolved path then finds
    a directory, and [exists] of either interface gives [true] there. *)
Theorem createDirectory_resolved_means_directory
    (w w' : fsys) (p : string) (mode : option Mode) (fuel : nat) :
  AsyncFile.createDirectory (H := layer) fuel p mode w = (w', Resolved tt) →
  stat (pathutil.resolve (H := layer) p w) w' = (w', inr (mkStats Directory)) ∧
  AsyncFile.exists_ (H := layer) (pathutil.resolve (H := layer) p w) w' = (w', Resolved true) ∧
  Legacy.exists_ (H := layer) (pathutil.resolve (H := layer) p w) w' = (w', Resolved true).
Proof.
  intros (Hcwd & q & m & Hfound)%createDirectory_success.
  assert (Hlstat : ∃ q' n', lookup_path w' false (pathutil.resolve (H := layer) p w)
                            = Found q' n').
  { revert Hfound. unfold lookup_path. case_decide; [done |]. apply walk_follow_found. }
  destruct Hlstat as (q' & n' & Hlstat).
  assert (Hstat : stat (pathutil.resolve (H := layer) p w) w' = (w', inr (mkStats Directory))).
  { unfold stat. by rewrite Hfound. }
  split_and!; [done | |].
  - rewrite exists_by_lstat. change (fs_lstat (Layer := layer) ?a ?b) with (lstat a b).
    unfold lstat. by rewrite Hlstat.
  - rewrite exists_by_stat. change (fs_stat (Layer := layer) ?a ?b) with (stat a b).
    by rewrite Hstat.
Qed.

Lemma createDirectory_resolved_means_directory_witness :
  stat "/home/up/srv/www" (AsyncFile.createDirectory (H := layer) 5 "up/srv/www" None Cover.linked).1
    = ((AsyncFile.createDirectory (H := layer) 5 "up/srv/www" None Cover.linked).1,
       inr (mkStats Directory)) ∧
  AsyncFile.exists_ (H := layer) "/home/up/srv/www"
    (AsyncFile.createDirectory (H := layer) 5 "up/srv/www" None Cover.linked).1
    = ((AsyncFile.createDirectory (H := layer) 5 "up/srv/www" None Cover.linked).1,
       Resolved true) ∧
  Legacy.exists_ (H := layer) "/home/up/srv/www"
    (AsyncFile.createDirectory (H := layer) 5 "up/srv/www" None Cover.linked).1
    = ((AsyncFile.createDirectory (H := layer) 5 "up/srv/www" None Cover.linked).1,
       Resolved true).
Proof.
  apply (createDirectory_resolved_means_directory Cover.linked _ "up/srv/www" None 5).
  vm_compute. reflexivity.
Defined.

(** X4.  On the reference tree, after [createDirectory] on a path whose
    way is clear and on which the platform refuses nothing
    ([permitted]), [exists] gives [true] for the root, for every ancestor of the resolved path
    and for the path itself (what the test 'createDirectory' asserts for
    a path three levels deep, made with the default mode). *)
Theorem exists_after_createDirectory
    (w : fsys) (p : string) (mode : option Mode) (fuel : nat) :
  let segs := segments (process_cwd (Layer := layer) w) p in
  length segs < fuel →
  clear_way (tree w) segs = true →
  permitted w segs (default (ModeNum 511) mode) = true →
  ∃ w', AsyncFile.createDirectory (H := layer) fuel p mode w = (w', Resolved tt) ∧
        Forall (λ q, AsyncFile.exists_ (H := layer) (join q) w' = (w', Resolved true))
          (lineage segs).
Proof.
  intros segs Hfuel Hclear%clear_way_unobstructed Hfree%permitted_unrefused.
  rewrite createDirectory_resolve.
  unfold pathutil.resolve. rewrite resolve_segments. fold segs.
  pose proof (segments_plain (process_cwd (Layer := layer) w) p) as Hplain. fold segs in Hplain.
  destruct (createDirectory_clear segs Hplain fuel mode w Hfuel Hclear Hfree)
    as (t' & -> & Hdirs & _).
  eexists. split; [done |]. apply Forall_forall. intros q Hq%elem_of_lineage.
  assert (Hqplain : Forall plain q).
  { destruct Hq as [rest ->]. by apply Forall_app in Hplain as [? _]. }
  rewrite exists_by_lstat. change (fs_lstat (Layer := layer) ?a ?b) with (lstat a b).
  unfold lstat. rewrite lookup_path_join by done. simpl.
  pose proof (Hdirs q Hq) as Hdir.
  destruct (node_at t' q) as [[m| |]|] eqn:Hnode; try done.
  rewrite (walk_dirs _ _ _ _ m); [done | done | | done].
  intros q' Hpre _. apply Hdirs. by etrans.
Qed.

Lemma exists_after_createDirectory_witness :
  ∃ w', AsyncFile.createDirectory (H := layer) 5 "temp3/dir1/dir2" None Sample.home
        = (w', Resolved tt) ∧
        Forall (λ q, AsyncFile.exists_ (H := layer) (join q) w' = (w', Resolved true))
          (lineage ["home"; "temp3"; "dir1"; "dir2"]).
Proof.
  apply (exists_after_createDirectory Sample.home "temp3/dir1/dir2" None 5).
  - vm_compute. lia.
  - vm_compute. reflexivity.
  - vm_compute. reflexivity.
Defined.

(** X5.  Over any layer, [mkdirp] calls [done] once, at the end of its
    run, or never; and what it calls it with is never the error that
    [fs.mkdir] has reported: it is [null], an error that [fs.stat] has
    reported, or the made-up "is already a file" error. *)
Theorem mkdirp_reports_stat_or_conflict
    (L : Layer) (fuel : nat) (p : string) (mode : Mode) (w : World) :
  ∃ w1 : World,
    (∀ callback, AsyncFile.mkdirp fuel p mode callback w = (w1, Pending)) ∨
    (∃ err : option Error,
        (∀ callback, AsyncFile.mkdirp fuel p mode callback w = callback err w1) ∧
        match err with
        | None => True
        | Some e =>
            (∃ q (w0 : World), (fs_stat q w0).2 = inl e) ∨ (∃ q, e = conflict_error q)
        end).
Proof.
  pose proof (mkdirp_origin L fuel p mode w) as Horigin.
  destruct (AsyncFile.mkdirp fuel p mode settle w) as [w1 [| [] |e]] eqn:Hrun;
    exists w1; simpl in Horigin.
  - left. intros callback. by rewrite mkdirp_factor, Hrun.
  - right. exists None. split; [| done]. intros callback. by rewrite mkdirp_factor, Hrun.
  - right. exists (Some e). split; [| done]. intros callback. by rewrite mkdirp_factor, Hrun.
Qed.


(** X7.  On the reference tree, two runs of [createDirectory] with the
    same mode, on paths whose ways are both clear and on which the
    platform refuses nothing ([permitted]), can be made in either order:
    both second runs are resolved, and both orders leave the same
    tree. *)
Theorem createDirectory_in_either_order
    (w : fsys) (p p' : string) (mode : option Mode) (fuel : nat) :
  length (segments (process_cwd (Layer := layer) w) p) < fuel →
  length (segments (process_cwd (Layer := layer) w) p') < fuel →
  clear_way (tree w) (segments (process_cwd (Layer := layer) w) p) = true →
  clear_way (tree w) (segments (process_cwd (Layer := layer) w) p') = true →
  permitted w (segments (process_cwd (Layer := layer) w) p)
    (default (ModeNum 511) mode) = true →
  permitted w (segments (process_cwd (Layer := layer) w) p')
    (default (ModeNum 511) mode) = true →
  ∃ w'',
    AsyncFile.createDirectory (H := layer) fuel p' mode
      (AsyncFile.createDirectory (H := layer) fuel p mode w).1 = (w'', Resolved tt) ∧
    AsyncFile.createDirectory (H := layer) fuel p mode
      (AsyncFile.createDirectory (H := layer) fuel p' mode w).1 = (w'', Resolved tt).
Proof.
  intros Hfuel Hfuel' Hclear%clear_way_unobstructed Hclear'%clear_way_unobstructed
    Hfree%permitted_unrefused Hfree'%permitted_unrefused.
  destruct (createDirectory_exact w p mode fuel Hfuel Hclear Hfree)
    as (w1 & -> & Hcwd1 & Hoff1 & Htree1).
  destruct (createDirectory_exact w p' mode fuel Hfuel' Hclear' Hfree')
    as (w2 & -> & Hcwd2 & Hoff2 & Htree2).
  cbn [fst].
  assert (Hsame1 : process_cwd (Layer := layer) w1 = process_cwd (Layer := layer) w)
    by (simpl; by rewrite Hcwd1).
  assert (Hsame2 : process_cwd (Layer := layer) w2 = process_cwd (Layer := layer) w)
    by (simpl; by rewrite Hcwd2).
  destruct (createDirectory_exact w1 p' mode fuel)
    as (w12 & -> & Hcwd12 & Hoff12 & Htree12).
  { by rewrite Hsame1. }
  { rewrite Hsame1. by eapply unobstructed_after. }
  { rewrite Hsame1, Hoff1. by eapply unrefused_after. }
  destruct (createDirectory_exact w2 p mode fuel)
    as (w21 & -> & Hcwd21 & Hoff21 & Htree21).
  { by rewrite Hsame2. }
  { rewrite Hsame2. by eapply unobstructed_after. }
  { rewrite Hsame2, Hoff2. by eapply unrefused_after. }
  rewrite Hsame1 in Htree12. rewrite Hsame2 in Htree21.
  exists w12. split; [done |]. do 2 f_equal.
  destruct w12 as [c12 t12 off12], w21 as [c21 t21 off21]. simpl in *.
  f_equal; [congruence | | congruence].
  apply map_eq. intros k.
  rewrite Htree12, Htree21, Htree1, Htree2.
  destruct (tree w !! k); [done |]. by repeat case_bool_decide.
Qed.

Lemma createDirectory_in_either_order_witness :
  ∃ w'',
    AsyncFile.createDirectory (H := layer) 5 "a/c" None
      (AsyncFile.createDirectory (H := layer) 5 "a/b" None Sample.home).1
      = (w'', Resolved tt) ∧
    AsyncFile.createDirectory (H := layer) 5 "a/b" None
      (AsyncFile.createDirectory (H := layer) 5 "a/c" None Sample.home).1
      = (w'', Resolved tt).
Proof.
  apply (createDirectory_in_either_order Sample.home "a/b" "a/c" None 5).
  - vm_compute. lia.
  - vm_compute. lia.
  - vm_compute. reflexivity.
  - vm_compute. reflexivity.
  - vm_compute. reflexivity.
  - vm_compute. reflexivity.
Defined.

(** X8.  On the reference tree, the [exists] of the two interfaces can
    tell different things only about a path that names a symbolic link:
    wherever [fs.lstat] does not report a link, both give the same
    boolean, or both are rejected with an error of the same code; and
    neither changes the tree. *)
Theorem exists_differs_only_at_links (w : fsys) (p : string) :
  (∀ st, (fs_lstat (Layer := layer) p w).2 = inr st → isSymbolicLink st = false) →
  (AsyncFile.exists_ (H := layer) p w).1 = w ∧
  (Legacy.exists_ (H := layer) p w).1 = w ∧
  match (AsyncFile.exists_ (H := layer) p w).2, (Legacy.exists_ (H := layer) p w).2 with
  | Resolved a, Resolved b => a = b
  | Rejected e, Rejected e' => code e = code e'
  | _, _ => False
  end.
Proof.
  rewrite exists_by_lstat, exists_by_stat.
  change (fs_lstat (Layer := layer) p w) with (lstat p w).
  change (fs_stat (Layer := layer) p w) with (stat p w).
  unfold lstat, stat, lookup_path. intros Hlink.
  destruct (decide (p = "")) as [-> | Hp]; [done |].
  rewrite walk_follow_agrees.
  - destruct (walk _ _ false _ _) as [q n | parent name | c]; simpl; [done | done |].
    unfold code_is. simpl. by case_bool_decide.
  - intros q target Hwalk. rewrite Hwalk in Hlink.
    by specialize (Hlink _ eq_refl).
Qed.

Lemma exists_differs_only_at_links_witness :
  (AsyncFile.exists_ (H := layer) "up/home/notes" Cover.linked).1 = Cover.linked ∧
  (Legacy.exists_ (H := layer) "up/home/notes" Cover.linked).1 = Cover.linked ∧
  match (AsyncFile.exists_ (H := layer) "up/home/notes" Cover.linked).2,
        (Legacy.exists_ (H := layer) "up/home/notes" Cover.linked).2 with
  | Resolved a, Resolved b => a = b
  | Rejected e, Rejected e' => code e = code e'
  | _, _ => False
  end.
Proof.
  apply (exists_differs_only_at_links Cover.linked "up/home/notes").
  intros st. vm_compute. intros [= <-]. reflexivity.
Defined.

End CoverTree.

(** * More of the code: [mkdirp] over any layer *)

Section CoverMkdirp.
Import Spec Cover.

(** X9.  Over any layer, [createDirectory] depends on its path only
    through [path.resolve]: two paths that resolve to the same absolute
    path give the same run.  And [path.resolve] goes by the names alone:
    a name and the [..] that follows it can be taken out of a path
    without changing the run, whatever the layer holds at that name, a
    symbolic link included. *)
Theorem createDirectory_resolves_lexically
    (L : Layer) (fuel : nat) (p p' : string) (mode : option Mode) (w : World) :
  (pathutil.resolve p w = pathutil.resolve p' w →
   AsyncFile.createDirectory fuel p mode w = AsyncFile.createDirectory fuel p' mode w) ∧
  (∀ (name : string) (before after : list string),
     plain name →
     Path.isAbsolute p = Path.isAbsolute p' →
     Path.components p = before ++ name :: ".." :: after →
     Path.components p' = before ++ after →
     AsyncFile.createDirectory fuel p mode w = AsyncFile.createDirectory fuel p' mode w).
Proof.
  assert (Hsame : pathutil.resolve p w = pathutil.resolve p' w →
    AsyncFile.createDirectory fuel p mode w = AsyncFile.createDirectory fuel p' mode w).
  { intros Hsame.
    by rewrite (createDirectory_resolve fuel p), (createDirectory_resolve fuel p'), Hsame. }
  split; [done |].
  intros name before after (_ & _ & Hdot & Hdots) Habs Hp Hp'. apply Hsame.
  unfold pathutil.resolve, Path.resolve. f_equal. rewrite <- Habs.
  destruct (Path.isAbsolute p).
  - rewrite Hp, Hp'. by apply normalize_cancel.
  - rewrite !components_append_slash, Hp, Hp', !app_assoc.
    by apply normalize_cancel.
Qed.

Lemma createDirectory_resolves_lexically_witness :
  AsyncFile.createDirectory (H := Posix.layer) 3 "up/../x" None Cover.linked =
  AsyncFile.createDirectory (H := Posix.layer) 3 "x" None Cover.linked.
Proof.
  apply (proj2 (createDirectory_resolves_lexically Posix.layer 3 "up/../x" "x" None
                  Cover.linked) "up" [] ["x"]).
  - vm_compute. repeat split; discriminate.
  - reflexivity.
  - vm_compute. reflexivity.
  - vm_compute. reflexivity.
Defined.

(** X10.  [mkdirp] has no stop of its own at the root, where
    [path.dirname] gives the root again: over a layer whose [fs.mkdir]
    reports [ENOENT] for every path, [createDirectory] never settles its
    promise, whatever the path and however long it runs. *)
Theorem createDirectory_without_a_root_never_settles (L : Layer) :
  (∀ p m (w : World), ∃ w1 err, fs_mkdir p m w = (w1, Some err) ∧ code err = Some "ENOENT") →
  ∀ fuel p mode (w : World), (AsyncFile.createDirectory fuel p mode w).2 = Pending.
Proof.
  intros Hmkdir fuel. induction fuel as [|fuel IH]; intros p mode w; [done |].
  destruct (Hmkdir (pathutil.resolve p w) (default (ModeNum 511) mode) w)
    as (w1 & err & Hrun & Hcode).
  rewrite (createDirectory_ENOENT _ _ _ _ _ _ Hrun Hcode).
  specialize (IH (pathutil.dirname (pathutil.resolve p w)) mode w1).
  by destruct (AsyncFile.createDirectory fuel _ mode w1) as [w2 [| |]].
Qed.

Lemma createDirectory_without_a_root_never_settles_witness :
  (AsyncFile.createDirectory (H := Scripted.layer Cover.no_drive) 50 "Z:/data/logs" None []).2
  = Pending.
Proof.
  apply (createDirectory_without_a_root_never_settles (Scripted.layer Cover.no_drive)).
  intros p m w. do 2 eexists. split; reflexivity.
Defined.

(** Over any layer, the bound on the nested calls of [mkdirp] has
    no say in how a run ends: a run of [createDirectory] that has
    settled its promise ends in the same state, with the same promise,
    under every larger bound. *)
Theorem createDirectory_settled_for_good
    (L : Layer) (fuel fuel' : nat) (p : string) (mode : option Mode) (w w' : World)
    (r : promise unit) :
  AsyncFile.createDirectory fuel p mode w = (w', r) →
  r ≠ Pending →
  fuel ≤ fuel' →
  AsyncFile.createDirectory fuel' p mode w = (w', r).
Proof.
  revert fuel' p w w' r. induction fuel as [|fuel IH]; intros fuel' p w w' r.
  { by intros [= <- <-]. }
  intros Hrun Hsettled Hle. destruct fuel' as [|fuel']; [lia |].
  assert (Hle' : fuel ≤ fuel') by lia.
  destruct (fs_mkdir (pathutil.resolve p w) (default (ModeNum 511) mode) w)
    as [w1 [err|]] eqn:Hmkdir.
  - destruct (decide (code err = Some "ENOENT")) as [Hcode | Hcode].
    + rewrite (createDirectory_ENOENT fuel _ _ _ _ _ Hmkdir Hcode) in Hrun.
      rewrite (createDirectory_ENOENT fuel' _ _ _ _ _ Hmkdir Hcode).
      destruct (AsyncFile.createDirectory fuel
                  (pathutil.dirname (pathutil.resolve p w)) mode w1)
        as [w2 [| [] |e]] eqn:Hparent.
      * by injection Hrun as <- <-.
      * rewrite (IH fuel' _ _ _ _ Hparent) by done. by apply IH.
      * by rewrite (IH fuel' _ _ _ _ Hparent) by done.
    + rewrite (createDirectory_other fuel _ _ _ _ _ Hmkdir Hcode) in Hrun.
      by rewrite (createDirectory_other fuel' _ _ _ _ _ Hmkdir Hcode).
  - rewrite (createDirectory_created fuel _ _ _ _ Hmkdir) in Hrun.
    by rewrite (createDirectory_created fuel' _ _ _ _ Hmkdir).
Qed.

Lemma createDirectory_settled_for_good_witness :
  AsyncFile.createDirectory (H := Posix.layer) 40 "a/b" None Sample.home
  = (Sample.home_a_b, Resolved tt).
Proof.
  apply (createDirectory_settled_for_good Posix.layer 3 40 "a/b" None Sample.home).
  - vm_compute. reflexivity.
  - discriminate.
  - lia.
Defined.
End CoverMkdirp.

(** * More of the code: the wrappers *)

Section CoverWrappers.
Import Spec Cover.

(** X11.  Over any layer, for every function of [fs] and every argument
    list, a call wrapped without a resolver (all wrappers but [read] and
    [write]) ends the same way in both interfaces, and always settled:
    rejected with the error that the callback receives, resolved with
    its first result otherwise. *)
Theorem wrappers_without_resolver_agree
    (L : Layer) (target : fs_function) (args : list value) (context : option value)
    (w : World) :
  Legacy.thunk target args context None w = AsyncFile.promisify target args context None w ∧
  AsyncFile.promisify target args context None w =
    ((fs_apply target args w).1,
     match (fs_apply target args w).2 with
     | (Some err, _) => Rejected err
     | (None, results) => Resolved (index results 0)
     end) ∧
  settled (AsyncFile.promisify target args context None w).2 = true.
Proof.
  rewrite thunk_settles, promisify_settles.
  split_and!; [done | done |].
  by destruct (fs_apply target args w) as [w1 [[err|] results]].
Qed.

(** X12.  Over any layer, the promise of [read] and of [write] in the
    first interface is never resolved: it is rejected when [fs.read] or
    [fs.write] fails, and stays pending when it succeeds. *)
Theorem legacy_read_write_never_resolve
    (L : Layer) (fd : Z) (buffer : list Z) (offset length position : Z)
    (arguments : list value) (w : World) :
  Legacy.read fd buffer offset length position w =
    ((fs_apply Fread [VNum fd; VBuffer buffer; VNum offset; VNum length; VNum position] w).1,
     match (fs_apply Fread
              [VNum fd; VBuffer buffer; VNum offset; VNum length; VNum position] w).2.1 with
     | Some err => Rejected err
     | None => Pending
     end) ∧
  Legacy.write arguments w =
    ((fs_apply Fwrite arguments w).1,
     match (fs_apply Fwrite arguments w).2.1 with
     | Some err => Rejected err
     | None => Pending
     end).
Proof.
  unfold Legacy.read, Legacy.write, Legacy.thunk, Promise, fs.apply. split.
  - by destruct (fs_apply Fread _ w) as [w1 [[err|] results]].
  - by destruct (fs_apply Fwrite _ w) as [w1 [[err|] results]].
Qed.

(** X13.  Over any layer, when [fs.read] succeeds, the promise of [read]
    in the current interface is resolved with a record whose [bytesRead]
    is the argument list of the call and whose [buffer] is [null],
    whatever [fs.read] reports to its callback; likewise [write], with
    [written].  The resolver is run on the [arguments] of [promisify],
    not on those of the callback. *)
Theorem read_write_record_ignores_the_callback
    (L : Layer) (fd : Z) (buffer : list Z) (offset length position : Z)
    (arguments : list value) (w : World) :
  ((fs_apply Fread [VNum fd; VBuffer buffer; VNum offset; VNum length; VNum position] w).2.1
     = None →
   AsyncFile.read fd buffer offset length position w =
     ((fs_apply Fread [VNum fd; VBuffer buffer; VNum offset; VNum length; VNum position] w).1,
      Resolved (VObject
        [("bytesRead",
          VArray [VNum fd; VBuffer buffer; VNum offset; VNum length; VNum position]);
         ("buffer", VNull)]))) ∧
  ((fs_apply Fwrite arguments w).2.1 = None →
   AsyncFile.write arguments w =
     ((fs_apply Fwrite arguments w).1,
      Resolved (VObject [("written", VArray arguments); ("buffer", VNull)]))).
Proof.
  unfold AsyncFile.read, AsyncFile.write. rewrite !promisify_settles. split.
  - by destruct (fs_apply Fread _ w) as [w1 [[err|] results]].
  - by destruct (fs_apply Fwrite _ w) as [w1 [[err|] results]].
Qed.

Lemma read_write_record_ignores_the_callback_witness :
  AsyncFile.read (H := Scripted.layer Scripted.granted) 3 Sample.buffer 0 5 0 [] =
    ([(Scripted.Fs_call Fread, Sample.read_arguments)],
     Resolved (VObject [("bytesRead", VArray Sample.read_arguments); ("buffer", VNull)])) ∧
  AsyncFile.write (H := Scripted.layer Scripted.granted) [VNum 3; VStr "hello"] [] =
    ([(Scripted.Fs_call Fwrite, [VNum 3; VStr "hello"])],
     Resolved (VObject [("written", VArray [VNum 3; VStr "hello"]); ("buffer", VNull)])).
Proof.
  pose proof (read_write_record_ignores_the_callback (Scripted.layer Scripted.granted)
                3 Sample.buffer 0 5 0 [VNum 3; VStr "hello"] []) as [Hread Hwrite].
  split; [apply Hread | apply Hwrite]; reflexivity.
Defined.

(** X14.  Over any layer, called with a path alone or with a path and
    a numeric mode, [access] of the first interface hands its arguments
    to [fs.access] and is rejected with the error of [fs.access] where
    [access] of the current interface, called with the same, is
    resolved with [false], and resolved where that is resolved with
    [true]; both leave the same state. *)
Theorem access_of_the_two_interfaces
    (L : Layer) (path : string) (mode : option Z) (w : World) :
  let arguments := VStr path :: match mode with Some n => [VNum n] | None => [] end in
  let m := match mode with Some n => given (ModeNum n) | None => undefined end in
  Legacy.access arguments w =
    ((fs_access path m w).1, outcome VUndefined (fs_access path m w).2) ∧
  AsyncFile.access path m w =
    ((Legacy.access arguments w).1,
     Resolved match (Legacy.access arguments w).2 with
              | Resolved _ => true
              | _ => false
              end).
Proof.
  intros arguments m. subst arguments m.
  unfold Legacy.access. rewrite thunk_settles.
  unfold AsyncFile.access, Promise, fs.access, fs_apply.
  destruct mode as [n|].
  - by destruct (fs_access path (given (ModeNum n)) w) as [w1 [err|]].
  - by destruct (fs_access path undefined w) as [w1 [err|]].
Qed.

(** X15.  The table [openFlags] gives the twelve open modes twelve
    different flag strings, and over any layer [writeTextFile] of the
    first interface hands its data to [fs.appendFile] for the four
    append modes and to [fs.writeFile] for the eight others. *)
Theorem open_modes_of_the_first_interface (L : Layer) :
  (∀ f g, Legacy.openFlags f = Legacy.openFlags g → f = g) ∧
  (∀ file data encoding f mode, ∃ options,
      Legacy.writeTextFile file data encoding (given (inl f)) mode =
      Legacy.thunk (if appends f then FappendFile else FwriteFile)
        [file; VStr data; options] None None).
Proof.
  split.
  - intros f g. by destruct f, g.
  - intros file data encoding f mode. unfold Legacy.writeTextFile.
    destruct f; by eexists.
Qed.

(** X16.  Over any layer, [readTextFile] and [writeTextFile] of the
    first interface always reach [fs.readFile], [fs.appendFile] or
    [fs.writeFile], with an options object that has an [encoding] and a
    [flags] string ([utf8] for an encoding left out or [null], the read
    or the write mode for an open mode left out or [null]), and a [mode]
    only where a non-empty one was given. *)
Theorem legacy_text_options
    (L : Layer) (file : value) (data : string)
    (encoding : optional (Encoding.t + string))
    (flags : optional (OpenFlags.t + string)) (mode : optional string) :
  let e := match encoding with
           | given (inl e) => Encoding.name e
           | given (inr s) => s
           | _ => "utf8"
           end in
  let fl d := match flags with given f => flag_string f | _ => d end in
  let m := match mode with
           | given m => if decide (m = "") then [] else [("mode", VStr m)]
           | _ => []
           end in
  Legacy.readTextFile file encoding flags =
    Legacy.thunk FreadFile
      [file; VObject [("encoding", VStr e); ("flags", VStr (fl "r"))]] None None ∧
  Legacy.writeTextFile file data encoding flags mode =
    Legacy.thunk (if starts_with_a (fl "w") then FappendFile else FwriteFile)
      [file; VStr data; VObject ([("encoding", VStr e); ("flags", VStr (fl "w"))] ++ m)]
      None None.
Proof.
  unfold Legacy.readTextFile, Legacy.writeTextFile, Legacy.createOptions,
    Legacy.options_value.
  destruct encoding as [| |[enc|enc]], flags as [| |[f|f]], mode as [| |m];
    simpl; try case_decide; simpl; split; try done;
    by destruct (starts_with_a _).
Qed.

(** X17.  Over any layer, [readTextFile] and [writeTextFile] of the
    current interface hand on an options object whose encoding is [utf8]
    when the encoding is left out, [null] when it is given as [null],
    and the given one otherwise, and whose flag string is the given one,
    or [r] for [readTextFile] and [w] for [writeTextFile] when the open
    mode is left out or [null]. *)
Theorem current_text_options
    (L : Layer) (file : value) (data : string) (encoding flags : optional string)
    (mode : optional Mode) :
  let enc := match encoding with
             | undefined => VStr "utf8"
             | null => VNull
             | given e => VStr e
             end in
  let fl d := match flags with given f => f | _ => d end in
  AsyncFile.readTextFile file encoding flags =
    AsyncFile.promisify FreadFile
      [file; VObject [("encoding", enc); ("flags", VStr (fl "r"))]] None None ∧
  AsyncFile.writeTextFile file data encoding flags mode =
    AsyncFile.promisify (if starts_with_a (fl "w") then FappendFile else FwriteFile)
      [file; VStr data;
       VObject [("encoding", enc); ("flags", VStr (fl "w"));
                ("mode", optional_value mode_value mode)]] None None.
Proof.
  unfold AsyncFile.readTextFile, AsyncFile.writeTextFile.
  destruct encoding as [| |e], flags as [| |f]; simpl; split; try done;
    by destruct (starts_with_a _).
Qed.
End CoverWrappers.
